(** * The contact worker (src/workers/contact-worker.js)

    A shallow embedding of the edge handler that accepts a contact-form
    submission, rate-limits and validates it, deduplicates retries and forwards
    the message upstream, together with the properties its specification
    states about it.

    JavaScript strings are sequences of UTF-16 code units; the two process-wide
    [Map]s are finite maps keyed by strings; [Date.now()], [request.json()] and
    the outbound [fetch] are inputs of the handler.  A run of the handler is
    taken as a whole: no other request is served between its steps.  A run in
    which an exception escapes the handler returns no response; what it did
    to the two maps before stays done. *)

From Stdlib Require Import ZArith NArith List String Ascii Bool Lia.
From stdpp Require Import gmap list.
Import ListNotations.

Local Open Scope Z_scope.

(** ** JavaScript strings *)

Module JS.

(** A string is its list of UTF-16 code units. *)
Abbreviation jsstring := (list N).

(** A literal of the source, all of whose characters are ASCII. *)
Definition str (s : string) : jsstring :=
  List.map N_of_ascii (list_ascii_of_string s).

(** ECMAScript's WhiteSpace and LineTerminator code points: what [\s] matches
    and what [String.prototype.trim] strips.  All of them are in the basic
    plane, so the test is per code unit. *)
Definition is_ws (c : N) : bool :=
  ((9 <=? c) && (c <=? 13) || (c =? 32) || (c =? 160) || (c =? 5760)
   || (8192 <=? c) && (c <=? 8202) || (c =? 8232) || (c =? 8233)
   || (c =? 8239) || (c =? 8287) || (c =? 12288) || (c =? 65279))%N.

Fixpoint trimStart (s : jsstring) : jsstring :=
  match s with
  | c :: r => if is_ws c then trimStart r else s
  | [] => []
  end.

Definition trimEnd (s : jsstring) : jsstring := rev (trimStart (rev s)).

(** [s.trim()] *)
Definition trim (s : jsstring) : jsstring := trimEnd (trimStart s).

(** [s.replace(/\s+/g, ' ')]: every maximal run of white space becomes one
    space.  [in_run] tells that the previous code unit was white space, whose
    run has already produced its space. *)
Fixpoint replace_ws_runs (in_run : bool) (s : jsstring) : jsstring :=
  match s with
  | [] => []
  | c :: r =>
      if is_ws c
      then (if in_run then replace_ws_runs true r else 32%N :: replace_ws_runs true r)
      else c :: replace_ws_runs false r
  end.

(** [s.slice(0, max)]: a negative [max] counts from the end of the string,
    and the end is clamped to the length. *)
Definition slice0 (s : jsstring) (max : Z) : jsstring :=
  let len := Z.of_nat (length s) in
  let final := if max <? 0 then Z.max (len + max) 0 else Z.min max len in
  take (Z.to_nat final) s.

(** [s.split(',')], for any one-unit separator. *)
Fixpoint split (sep : N) (s : jsstring) : list jsstring :=
  match s with
  | [] => [[]]
  | c :: r =>
      if (c =? sep)%N then [] :: split sep r
      else match split sep r with
           | piece :: rest => (c :: piece) :: rest
           | [] => [[c]]
           end
  end.

(** Truthiness of a string: [Boolean(s)] and [!s]. *)
Definition truthy_str (s : jsstring) : bool :=
  match s with [] => false | _ => true end.

(** [a.join(sep)] on strings. *)
Fixpoint join (sep : jsstring) (l : list jsstring) : jsstring :=
  match l with
  | [] => []
  | [x] => x
  | x :: r => x ++ sep ++ join sep r
  end.

(** *** Values produced by [request.json()]

    A number is kept as the text [String] gives for it, which is all the
    handler ever asks of a number besides its truthiness (this text is ["0"]
    exactly for the two zeros; JSON has no NaN).  An object is the list of
    its own properties, the first binding of a name being the one that
    counts. *)
#[local] Unset Elimination Schemes.
Inductive value : Type :=
  | VNull
  | VBool (b : bool)
  | VNumber (text : jsstring)
  | VString (s : jsstring)
  | VArray (elements : list value)
  | VObject (properties : list (jsstring * value)).
#[local] Set Elimination Schemes.

Fixpoint assoc (k : jsstring) (l : list (jsstring * value)) : option value :=
  match l with
  | [] => None
  | (k', v) :: r => if bool_decide (k' = k) then Some v else assoc k r
  end.

(** All the results, or [None] as soon as one of them is [None]. *)
Fixpoint all_some {A} (l : list (option A)) : option (list A) :=
  match l with
  | [] => Some []
  | x :: r =>
      match x, all_some r with
      | Some a, Some t => Some (a :: t)
      | _, _ => None
      end
  end.

(** [String(v)]; [None] when it throws a TypeError.  An object is converted
    by its [toString] method, then by [valueOf]: an own property [toString]
    hides [Object.prototype.toString] and, coming from JSON, is not callable,
    and [valueOf] (own, or [Object.prototype.valueOf], which returns the
    object) gives no primitive, so the conversion throws; without such a
    property the text is ["[object Object]"].  An array is converted by
    [join], which converts every element that is not [null]. *)
Fixpoint toString (v : value) : option jsstring :=
  match v with
  | VNull => Some (str "null")
  | VBool true => Some (str "true")
  | VBool false => Some (str "false")
  | VNumber text => Some text
  | VString s => Some s
  | VArray elements =>
      (* Array.prototype.join: null elements give the empty string *)
      match all_some (List.map (fun e => match e with
                                         | VNull => Some []
                                         | _ => toString e
                                         end) elements) with
      | Some texts => Some (join (str ",") texts)
      | None => None
      end
  | VObject properties =>
      match assoc (str "toString") properties with
      | Some _ => None
      | None => Some (str "[object Object]")
      end
  end.

(** [!v] is [negb (truthy v)]. *)
Definition truthy (v : value) : bool :=
  match v with
  | VNull => false
  | VBool b => b
  | VNumber text => negb (bool_decide (text = str "0"))
  | VString s => truthy_str s
  | VArray _ | VObject _ => true
  end.

(** [typeof v === 'object'] *)
Definition typeof_object (v : value) : bool :=
  match v with
  | VNull | VArray _ | VObject _ => true
  | _ => false
  end.

(** [v.name] for one of the property names the worker reads ([requestId],
    [name], [email], [subject], [message], [timestamp]); [None] is
    [undefined].  Neither [Object.prototype] nor [Array.prototype] has any of
    them, so only an object's own properties are found. *)
Definition get (v : value) (name : jsstring) : option value :=
  match v with
  | VObject properties => assoc name properties
  | _ => None
  end.

(** [{ ...base, ...extra }] on objects kept as property lists: a name already
    present keeps its place and takes the new value, a new name goes last. *)
Fixpoint set_prop {A} (k : jsstring) (v : A) (o : list (jsstring * A)) : list (jsstring * A) :=
  match o with
  | [] => [(k, v)]
  | (k', v') :: r =>
      if bool_decide (k' = k) then (k, v) :: r else (k', v') :: set_prop k v r
  end.

Definition spread {A} (base extra : list (jsstring * A)) : list (jsstring * A) :=
  fold_left (fun o kv => set_prop (fst kv) (snd kv) o) extra base.

(** *** Regular expressions

    The fragment the worker's pattern is written in: character classes,
    sequence and [+], matched against the whole string (the pattern is
    anchored by [^] and [$] and has no flag). *)
Inductive regex : Type :=
  | Fail
  | Eps
  | Class (p : N -> bool)
  | Seq (r1 r2 : regex)
  | Alt (r1 r2 : regex)
  | Star (r : regex).

Definition Lit (c : N) : regex := Class (N.eqb c).
Definition Plus (r : regex) : regex := Seq r (Star r).

(** The strings a pattern matches. *)
Inductive Matches : regex -> jsstring -> Prop :=
  | MEps : Matches Eps []
  | MClass p c : p c = true -> Matches (Class p) [c]
  | MSeq r1 r2 s1 s2 : Matches r1 s1 -> Matches r2 s2 -> Matches (Seq r1 r2) (s1 ++ s2)
  | MAltL r1 r2 s : Matches r1 s -> Matches (Alt r1 r2) s
  | MAltR r1 r2 s : Matches r2 s -> Matches (Alt r1 r2) s
  | MStarNil r : Matches (Star r) []
  | MStarApp r s1 s2 : Matches r s1 -> Matches (Star r) s2 -> Matches (Star r) (s1 ++ s2).

Fixpoint nullable (r : regex) : bool :=
  match r with
  | Fail | Class _ => false
  | Eps | Star _ => true
  | Seq r1 r2 => nullable r1 && nullable r2
  | Alt r1 r2 => nullable r1 || nullable r2
  end.

Fixpoint deriv (c : N) (r : regex) : regex :=
  match r with
  | Fail | Eps => Fail
  | Class p => if p c then Eps else Fail
  | Seq r1 r2 =>
      if nullable r1 then Alt (Seq (deriv c r1) r2) (deriv c r2)
      else Seq (deriv c r1) r2
  | Alt r1 r2 => Alt (deriv c r1) (deriv c r2)
  | Star r => Seq (deriv c r) (Star r)
  end.

(** [/^r$/.test(s)] *)
Fixpoint test (r : regex) (s : jsstring) : bool :=
  match s with
  | [] => nullable r
  | c :: s' => test (deriv c r) s'
  end.

End JS.

Import JS.

(** ** The worker *)

Definition RATE_WINDOW_MS : Z := 60000.
Definition RATE_MAX : Z := 5.
Definition IDEMPOTENCY_TTL_MS : Z := 10 * 60000.

(** What the handler reads of [env]. *)
Record Env : Type := {
  CONTACT_API_ENDPOINT : jsstring;
  CONTACT_API_KEY : jsstring;
  ALLOWED_ORIGINS : option jsstring   (* [None]: not configured *)
}.

(** A [Response]: [body] is the value whose [JSON.stringify] text is sent,
    [None] for the [null] body. *)
Record Response : Type := {
  status : Z;
  headers : list (jsstring * jsstring);
  body : option value
}.

(** [json(data, status = 200, extraHeaders = {})] *)
Definition json (data : value) (status : Z) (extraHeaders : list (jsstring * jsstring)) : Response :=
  {| body := Some data;
     status := status;
     headers := spread [(str "content-type", str "application/json; charset=utf-8")] extraHeaders |}.

(** [String(env.ALLOWED_ORIGINS || '').split(',').map((v) => v.trim()).filter(Boolean)] *)
Definition getAllowedOrigins (env : Env) : list jsstring :=
  let configured := match ALLOWED_ORIGINS env with
                    | Some s => if truthy_str s then s else str ""
                    | None => str ""
                    end in
  List.filter truthy_str (List.map trim (split 44%N configured)).

(** [origin] is [request.headers.get('Origin')]: a string or [null]. *)
Definition allowedOrigin (origin : option jsstring) (env : Env) : bool :=
  match origin with
  | None => false
  | Some o =>
      if negb (truthy_str o) then false
      else bool_decide (o ∈ getAllowedOrigins env)
  end.

(** The text a header takes from a value that is a string or [null]. *)
Definition header_text (v : option jsstring) : jsstring :=
  match v with Some s => s | None => str "null" end.

Definition cors (origin : option jsstring) : list (jsstring * jsstring) :=
  [ (str "access-control-allow-origin", header_text origin);
    (str "access-control-allow-methods", str "POST, OPTIONS");
    (str "access-control-allow-headers", str "content-type");
    (str "vary", str "Origin") ].

(** [sanitizeText(value, max)]:
    [String(value ?? '').trim().replace(/\s+/g, ' ').slice(0, max)];
    [None] when [String] throws. *)
Definition sanitizeText (value : option JS.value) (max : Z) : option jsstring :=
  match (match value with
         | None | Some VNull => Some (str "")
         | Some v => toString v
         end) with
  | Some text => Some (slice0 (replace_ws_runs false (trim text)) max)
  | None => None
  end.

Record Payload : Type := {
  requestId : jsstring;
  name : jsstring;
  email : jsstring;
  subject : jsstring;
  message : jsstring;
  timestamp : jsstring
}.

(** What [validateBody] returns: [{ ok: false, error }] or
    [{ ok: true, payload }]. *)
Inductive Validation : Type :=
  | Invalid (error : jsstring)
  | Valid (payload : Payload).

(** [[^\s@]] *)
Definition not_space_at (c : N) : bool := negb (is_ws c || (c =? 64)%N).

(** [/^[^\s@]+@[^\s@]+\.[^\s@]+$/] *)
Definition emailRegex : regex :=
  Seq (Plus (Class not_space_at))
    (Seq (Lit 64)
       (Seq (Plus (Class not_space_at))
          (Seq (Lit 46) (Plus (Class not_space_at))))).

(** [validateBody(body)]; [None] when one of the [sanitizeText] calls throws,
    which the function does not catch.  The six fields are sanitized in the
    order of the object literal, before any of them is looked at. *)
Definition validateBody (body : value) : option Validation :=
  if negb (truthy body) || negb (typeof_object body) then
    Some (Invalid (str "Invalid payload."))
  else
    requestId_ ← sanitizeText (get body (str "requestId")) 120;
    name_ ← sanitizeText (get body (str "name")) 120;
    email_ ← sanitizeText (get body (str "email")) 160;
    subject_ ← sanitizeText (get body (str "subject")) 180;
    message_ ← sanitizeText (get body (str "message")) 4000;
    timestamp_ ← sanitizeText (get body (str "timestamp")) 80;
    let payload := {|
      requestId := requestId_;
      name := name_;
      email := email_;
      subject := subject_;
      message := message_;
      timestamp := timestamp_ |} in
    if negb (truthy_str (requestId payload)) || negb (truthy_str (name payload))
       || negb (truthy_str (email payload)) || negb (truthy_str (subject payload))
       || negb (truthy_str (message payload)) || negb (truthy_str (timestamp payload))
    then Some (Invalid (str "Missing required fields."))
    else if negb (test emailRegex (email payload)) then Some (Invalid (str "Invalid email."))
    else Some (Valid payload).

(** *** Rate limiter *)

Record Bucket : Type := { count : Z; resetAt : Z }.

(** [rateLimited(clientKey)], with [now] the value [Date.now()] returns in it;
    the result carries the [rateBucket] map as the call leaves it. *)
Definition rateLimited (now : Z) (clientKey : jsstring) (rateBucket : gmap jsstring Bucket)
    : bool * gmap jsstring Bucket :=
  match rateBucket !! clientKey with
  | None =>
      (false, <[clientKey := {| count := 1; resetAt := now + RATE_WINDOW_MS |}]> rateBucket)
  | Some existing =>
      if now >? resetAt existing then
        (false, <[clientKey := {| count := 1; resetAt := now + RATE_WINDOW_MS |}]> rateBucket)
      else if count existing >=? RATE_MAX then
        (true, rateBucket)
      else
        (false, <[clientKey := {| count := count existing + 1;
                                  resetAt := resetAt existing |}]> rateBucket)
  end.

(** *** Idempotency store *)

(** The [data] given to [setIdempotent]: [{ status: 'accepted' }]. *)
Record IdempotencyData : Type := { data_status : jsstring }.

(** A stored record: [{ ...data, expiresAt }]. *)
Record IdempotencyRecord : Type := { record_status : jsstring; expiresAt : Z }.

Definition getIdempotent (now : Z) (requestId : jsstring)
    (idempotencyStore : gmap jsstring IdempotencyRecord)
    : option IdempotencyRecord * gmap jsstring IdempotencyRecord :=
  match idempotencyStore !! requestId with
  | None => (None, idempotencyStore)
  | Some existing =>
      if now >? expiresAt existing then (None, delete requestId idempotencyStore)
      else (Some existing, idempotencyStore)
  end.

Definition setIdempotent (now : Z) (requestId : jsstring) (data : IdempotencyData)
    (idempotencyStore : gmap jsstring IdempotencyRecord)
    : gmap jsstring IdempotencyRecord :=
  <[requestId := {| record_status := data_status data;
                    expiresAt := now + IDEMPOTENCY_TTL_MS |}]> idempotencyStore.

(** *** Request handler *)

(** The two module-level maps. *)
Record State : Type := {
  rateBucket : gmap jsstring Bucket;
  idempotencyStore : gmap jsstring IdempotencyRecord
}.

Definition initial : State := {| rateBucket := ∅; idempotencyStore := ∅ |}.

(** What the handler reads of [request]: the path of its URL, its method, two
    headers ([None] when [headers.get] gives [null]) and the outcome of
    [request.json()] ([None] when it rejects). *)
Record Request : Type := {
  pathname : jsstring;
  method : jsstring;
  Origin : option jsstring;
  CF_Connecting_IP : option jsstring;
  request_json : option value
}.

(** The outcome of awaiting the outbound [fetch]: a response with its status,
    or an exception. *)
Inductive Upstream : Type :=
  | Responds (upstream_status : Z)
  | Throws.

(** [upstream.ok] *)
Definition ok (upstream_status : Z) : bool :=
  (200 <=? upstream_status) && (upstream_status <=? 299).

(** What the surroundings answer during one run of the handler: the clock at
    each of the three places that read it, and the upstream's behaviour. *)
Record Ambient : Type := {
  now_rateLimited : Z;
  now_getIdempotent : Z;
  now_setIdempotent : Z;
  upstream : Upstream
}.

(** What the handler does besides answering: the outbound POST and the
    [console.log] lines, in the order they happen. *)
Inductive Effect : Type :=
  | Post (url : jsstring) (post_headers : list (jsstring * jsstring)) (post_body : Payload)
  | Log (event requestId status : jsstring).

(** The outcome of a run: the response the handler returns, [None] when it
    throws instead (its promise rejects and no response is made); the two maps
    as the run leaves them; what it did besides. *)
Record Outcome : Type := {
  response : option Response;
  final : State;
  effects : list Effect
}.

Definition error_body (error : jsstring) : value :=
  VObject [(str "error", VString error)].

Definition retryable_body (error : jsstring) : value :=
  VObject [(str "error", VString error); (str "retryable", VBool true)].

Definition ok_body (status requestId : jsstring) : value :=
  VObject [(str "ok", VBool true); (str "status", VString status);
           (str "requestId", VString requestId)].

Definition submit_log (requestId status : jsstring) : Effect :=
  Log (str "contact.submit") requestId status.

(** The outbound call of the dispatch stage. *)
Definition upstream_post (env : Env) (payload : Payload) : Effect :=
  Post (CONTACT_API_ENDPOINT env)
    [ (str "content-type", str "application/json");
      (str "authorization", str "Bearer " ++ CONTACT_API_KEY env);
      (str "x-idempotency-key", requestId payload) ]
    payload.

(** [request.headers.get('CF-Connecting-IP') || 'unknown'] *)
Definition client_key (request : Request) : jsstring :=
  match CF_Connecting_IP request with
  | Some a => if truthy_str a then a else str "unknown"
  | None => str "unknown"
  end.

(** [fetch(request, env)], run on the state [st] with the surroundings [w]. *)
Definition fetch (request : Request) (env : Env) (w : Ambient) (st : State) : Outcome :=
  let origin := Origin request in
  if negb (bool_decide (pathname request = str "/contact")) then
    {| response := Some (json (error_body (str "Not found.")) 404 []); final := st; effects := [] |}
  else if bool_decide (method request = str "OPTIONS") then
    if negb (allowedOrigin origin env) then
      {| response := Some (json (error_body (str "Origin not allowed.")) 403 []);
         final := st; effects := [] |}
    else
      {| response := Some {| body := None; status := 204; headers := cors origin |};
         final := st; effects := [] |}
  else if negb (bool_decide (method request = str "POST")) then
    {| response := Some (json (error_body (str "Method not allowed.")) 405 []);
       final := st; effects := [] |}
  else if negb (allowedOrigin origin env) then
    {| response := Some (json (error_body (str "Origin not allowed.")) 403 []);
       final := st; effects := [] |}
  else
    let ip := client_key request in
    let (limited, buckets) := rateLimited (now_rateLimited w) ip (rateBucket st) in
    let st1 := {| rateBucket := buckets; idempotencyStore := idempotencyStore st |} in
    if limited then
      {| response := Some (json (error_body (str "Rate limit exceeded.")) 429 (cors origin));
         final := st1; effects := [] |}
    else
      match request_json request with
      | None =>
          {| response := Some (json (error_body (str "Invalid JSON.")) 400 (cors origin));
             final := st1; effects := [] |}
      | Some body =>
          match validateBody body with
          | None => {| response := None; final := st1; effects := [] |}
          | Some (Invalid error) =>
              {| response := Some (json (error_body error) 400 (cors origin));
                 final := st1; effects := [] |}
          | Some (Valid payload) =>
              let (existing, store) :=
                getIdempotent (now_getIdempotent w) (requestId payload) (idempotencyStore st1) in
              let st2 := {| rateBucket := buckets; idempotencyStore := store |} in
              match existing with
              | Some _ =>
                  {| response := Some (json (ok_body (str "duplicate") (requestId payload)) 200
                                   (cors origin));
                     final := st2;
                     effects := [submit_log (requestId payload) (str "duplicate")] |}
              | None =>
                  match upstream w with
                  | Responds upstream_status =>
                      if negb (ok upstream_status) then
                        {| response := Some (json (retryable_body (str "Unable to process message."))
                                         502 (cors origin));
                           final := st2;
                           effects := [upstream_post env payload;
                                       submit_log (requestId payload) (str "upstream_error")] |}
                      else
                        {| response := Some (json (ok_body (str "accepted") (requestId payload)) 200
                                         (cors origin));
                           final := {| rateBucket := buckets;
                                       idempotencyStore :=
                                         setIdempotent (now_setIdempotent w) (requestId payload)
                                           {| data_status := str "accepted" |} store |};
                           effects := [upstream_post env payload;
                                       submit_log (requestId payload) (str "accepted")] |}
                  | Throws =>
                      {| response := Some (json (retryable_body (str "Upstream transport failed."))
                                       502 (cors origin));
                         final := st2;
                         effects := [upstream_post env payload;
                                     submit_log (requestId payload) (str "network_error")] |}
                  end
              end
          end
      end.

(** ** Notions the properties are stated with *)

(** The shape [replace_ws_runs] produces: every white-space unit is a space
    that does not follow white space. *)
Fixpoint collapsed (in_run : bool) (s : jsstring) : bool :=
  match s with
  | [] => true
  | c :: r =>
      if is_ws c then negb in_run && (c =? 32)%N && collapsed true r
      else collapsed false r
  end.

(** The last code unit is white space. *)
Definition ends_ws (s : jsstring) : bool :=
  match rev s with
  | c :: _ => is_ws c
  | [] => false
  end.

(** The shape of an address in the specification's words: one or more
    characters that are neither white space nor [@], then [@], then one or
    more such characters, then [.], then one or more such characters. *)
Definition plain (c : N) : Prop := is_ws c = false /\ c <> 64%N.

Definition one_or_more_plain (s : jsstring) : Prop := s <> [] /\ Forall plain s.

Definition email_shape (s : jsstring) : Prop :=
  exists a b c,
    s = a ++ [64%N] ++ b ++ [46%N] ++ c
    /\ one_or_more_plain a /\ one_or_more_plain b /\ one_or_more_plain c.

(** A body the validator goes on to sanitize: an object for [typeof] that is
    not [null] (an array is one). *)
Definition is_object (body : value) : bool :=
  match body with
  | VArray _ | VObject _ => true
  | _ => false
  end.

(** The text a field value is coerced to: the empty text for an absent or
    [null] value, [String] of it otherwise; [None] when [String] throws. *)
Definition field_text (v : option value) : option jsstring :=
  match v with
  | None | Some VNull => Some (str "")
  | Some v => toString v
  end.

(** What the sanitizer does to a text: the methods [trim], [replace] and
    [slice] one after another. *)
Definition trim_replace_slice (text : jsstring) (max : Z) : jsstring :=
  slice0 (replace_ws_runs false (trim text)) max.

(** A text begins with white space, or is empty. *)
Definition starts_ws (s : jsstring) : bool :=
  match s with
  | d :: _ => is_ws d
  | [] => true
  end.

(** The words of a text: its maximal runs of code units that are not white
    space, from left to right. *)
Fixpoint words (s : jsstring) : list jsstring :=
  match s with
  | [] => []
  | c :: r =>
      if is_ws c then words r
      else if starts_ws r then [c] :: words r
      else match words r with
           | w :: ws => (c :: w) :: ws
           | [] => [[c]]
           end
  end.

(** The sanitizer in the specification's words: white space trimmed off both
    ends and every run of white space inside collapsed to one space (what is
    left is the words of the text with one space between them), then the text
    truncated to [n] characters. *)
Definition sanitize_spec (text : jsstring) (n : nat) : jsstring :=
  take n (join (str " ") (words text)).

(** The six fields of a body, each coerced to text and sanitized, in the
    specification's sense, with its bound; [None] when a field has no text. *)
Definition sanitized (body : value) : option Payload :=
  requestId_ ← field_text (get body (str "requestId"));
  name_ ← field_text (get body (str "name"));
  email_ ← field_text (get body (str "email"));
  subject_ ← field_text (get body (str "subject"));
  message_ ← field_text (get body (str "message"));
  timestamp_ ← field_text (get body (str "timestamp"));
  Some {| requestId := sanitize_spec requestId_ 120;
          name := sanitize_spec name_ 120;
          email := sanitize_spec email_ 160;
          subject := sanitize_spec subject_ 180;
          message := sanitize_spec message_ 4000;
          timestamp := sanitize_spec timestamp_ 80 |}.

Definition some_field_empty (p : Payload) : Prop :=
  requestId p = [] \/ name p = [] \/ email p = [] \/ subject p = []
  \/ message p = [] \/ timestamp p = [].

(** A submission whose fields are all in order but for its address. *)
Definition submission (rid address : string) : value :=
  VObject [ (str "requestId", VString (str rid));
            (str "name", VString (str "Ada"));
            (str "email", VString (str address));
            (str "subject", VString (str "Hello"));
            (str "message", VString (str "A message."));
            (str "timestamp", VString (str "2026-01-28T10:00:00Z")) ].

(** The payload that submission validates to, when [rid] and [address] are
    clean texts. *)
Definition submitted (rid address : string) : Payload := {|
  requestId := str rid;
  name := str "Ada";
  email := str address;
  subject := str "Hello";
  message := str "A message.";
  timestamp := str "2026-01-28T10:00:00Z" |}.

(** A submission one of whose fields cannot be coerced to text: its name is
    an object with a property [toString]. *)
Definition hostile_submission : value :=
  VObject [ (str "requestId", VString (str "r-1"));
            (str "name", VObject [(str "toString", VNumber (str "1"))]);
            (str "email", VString (str "a@b.co"));
            (str "subject", VString (str "Hello"));
            (str "message", VString (str "A message."));
            (str "timestamp", VString (str "2026-01-28T10:00:00Z")) ].

Definition some_field_empty_b (p : Payload) : bool :=
  negb (truthy_str (requestId p)) || negb (truthy_str (name p))
  || negb (truthy_str (email p)) || negb (truthy_str (subject p))
  || negb (truthy_str (message p)) || negb (truthy_str (timestamp p)).

(** The bucket maps the rate limiter can produce from the empty map the
    module starts with, by calls for any clients at any times. *)
Inductive reachable : gmap jsstring Bucket -> Prop :=
  | reachable_empty : reachable ∅
  | reachable_call now clientKey rateBucket :
      reachable rateBucket -> reachable (snd (rateLimited now clientKey rateBucket)).

(** The limiter called for one client at each of [times] in turn. *)
Fixpoint rateLimited_each (times : list Z) (clientKey : jsstring)
    (rateBucket : gmap jsstring Bucket) : list bool * gmap jsstring Bucket :=
  match times with
  | [] => ([], rateBucket)
  | now :: later =>
      let (limited, buckets) := rateLimited now clientKey rateBucket in
      let (rest, buckets') := rateLimited_each later clientKey buckets in
      (limited :: rest, buckets')
  end.

(** A call at [now] opens a window for the client: it has no bucket, or its
    bucket's window is over. *)
Definition opens_window (now : Z) (clientKey : jsstring)
    (rateBucket : gmap jsstring Bucket) : Prop :=
  match rateBucket !! clientKey with
  | None => True
  | Some existing => now > resetAt existing
  end.

(** The request's origin is, exactly, an entry of the configured allow-list. *)
Definition listed (origin : option jsstring) (env : Env) : Prop :=
  exists o, origin = Some o /\ o ∈ getAllowedOrigins env.

(** [ALLOWED_ORIGINS] is unset, empty, or made of commas and white space only. *)
Definition blank_origins (env : Env) : Prop :=
  match ALLOWED_ORIGINS env with
  | None => True
  | Some s => Forall (fun c => c = 44%N \/ is_ws c = true) s
  end.

(** The value of a response header. *)
Fixpoint header (name : jsstring) (hs : list (jsstring * jsstring)) : option jsstring :=
  match hs with
  | [] => None
  | (k, v) :: r => if bool_decide (k = name) then Some v else header name r
  end.

(** The headers of a response that carries no CORS header. *)
Definition plain_headers : list (jsstring * jsstring) :=
  [(str "content-type", str "application/json; charset=utf-8")].

(** The request passes every check before the idempotency lookup and is
    validated to [payload]: it is a POST to [/contact] from an allowed origin,
    the rate limiter lets it through, its body parses and validates. *)
Definition reaches_lookup (request : Request) (env : Env) (w : Ambient) (st : State)
    (payload : Payload) : Prop :=
  pathname request = str "/contact"
  /\ method request = str "POST"
  /\ allowedOrigin (Origin request) env = true
  /\ fst (rateLimited (now_rateLimited w) (client_key request) (rateBucket st)) = false
  /\ exists body, request_json request = Some body /\ validateBody body = Some (Valid payload).

(** What the handler does from the idempotency lookup on (the source's lines
    after [const { payload } = validated]), given the [rateBucket] map the
    limiter left; [fetch_lookup] shows [fetch] to be this on every request
    that [reaches_lookup]. *)
Definition from_lookup (origin : option jsstring) (env : Env) (w : Ambient)
    (buckets : gmap jsstring Bucket) (store0 : gmap jsstring IdempotencyRecord)
    (payload : Payload) : Outcome :=
  let (existing, store) := getIdempotent (now_getIdempotent w) (requestId payload) store0 in
  let st2 := {| rateBucket := buckets; idempotencyStore := store |} in
  match existing with
  | Some _ =>
      {| response := Some (json (ok_body (str "duplicate") (requestId payload)) 200 (cors origin));
         final := st2;
         effects := [submit_log (requestId payload) (str "duplicate")] |}
  | None =>
      match upstream w with
      | Responds upstream_status =>
          if negb (ok upstream_status) then
            {| response := Some (json (retryable_body (str "Unable to process message.")) 502
                             (cors origin));
               final := st2;
               effects := [upstream_post env payload;
                           submit_log (requestId payload) (str "upstream_error")] |}
          else
            {| response := Some (json (ok_body (str "accepted") (requestId payload)) 200 (cors origin));
               final := {| rateBucket := buckets;
                           idempotencyStore :=
                             setIdempotent (now_setIdempotent w) (requestId payload)
                               {| data_status := str "accepted" |} store |};
               effects := [upstream_post env payload;
                           submit_log (requestId payload) (str "accepted")] |}
      | Throws =>
          {| response := Some (json (retryable_body (str "Upstream transport failed.")) 502
                           (cors origin));
             final := st2;
             effects := [upstream_post env payload;
                         submit_log (requestId payload) (str "network_error")] |}
      end
  end.

(** The outbound POSTs among the effects of a run. *)
Definition posts (es : list Effect) : list Effect :=
  List.filter (fun e => match e with Post _ _ _ => true | Log _ _ _ => false end) es.

(** The upstream did not confirm: a status outside 200..299, or an exception. *)
Definition upstream_failed (w : Ambient) : Prop :=
  match upstream w with
  | Responds upstream_status => upstream_status < 200 \/ 299 < upstream_status
  | Throws => True
  end.

(** Examples: a site with one allowed origin, and requests to it. *)
Definition site_env : Env := {|
  CONTACT_API_ENDPOINT := str "https://api.example/messages";
  CONTACT_API_KEY := str "s3cret";
  ALLOWED_ORIGINS := Some (str "https://site.example") |}.

Definition request_of (verb : string) (origin : option jsstring) (body : option value)
    : Request := {|
  pathname := str "/contact";
  method := str verb;
  Origin := origin;
  CF_Connecting_IP := Some (str "203.0.113.7");
  request_json := body |}.

Definition calm (now : Z) (up : Upstream) : Ambient := {|
  now_rateLimited := now;
  now_getIdempotent := now;
  now_setIdempotent := now;
  upstream := up |}.

(** The client's bucket after a request the limiter counts. *)
Definition counted (now : Z) (bucket : option Bucket) : Bucket :=
  match bucket with
  | Some existing =>
      if now >? resetAt existing then {| count := 1; resetAt := now + 60000 |}
      else {| count := count existing + 1; resetAt := resetAt existing |}
  | None => {| count := 1; resetAt := now + 60000 |}
  end.

(** The body is rejected before it becomes a payload: it does not parse, or
    the validator refuses it. *)
Definition bad_body (request : Request) : Prop :=
  match request_json request with
  | None => True
  | Some body => exists error, validateBody body = Some (Invalid error)
  end.

(** The same configuration with another credential. *)
Definition with_key (key : jsstring) (env : Env) : Env := {|
  CONTACT_API_ENDPOINT := CONTACT_API_ENDPOINT env;
  CONTACT_API_KEY := key;
  ALLOWED_ORIGINS := ALLOWED_ORIGINS env |}.

(** A header list without the header [name]; an effect without the
    [authorization] header of its outbound call. *)
Definition without (name : jsstring) (hs : list (jsstring * jsstring))
    : list (jsstring * jsstring) :=
  List.filter (fun kv => negb (bool_decide (fst kv = name))) hs.

Definition redact (e : Effect) : Effect :=
  match e with
  | Post url post_headers post_body => Post url (without (str "authorization") post_headers) post_body
  | Log _ _ _ => e
  end.

(** The state in which the example client has used up its window, which
    opened at 1000. *)
Definition spent : State := {|
  rateBucket := snd (rateLimited_each [1000; 1001; 1002; 1003; 1004] (str "203.0.113.7") ∅);
  idempotencyStore := ∅ |}.

(** The names of the six fields the validator reads. *)
Definition field_names : list jsstring :=
  [str "requestId"; str "name"; str "email"; str "subject"; str "message"; str "timestamp"].

(** The fields of a payload, each with the bound the validator sanitizes it to. *)
Definition fields_with_bounds (p : Payload) : list (jsstring * Z) :=
  [(requestId p, 120); (name p, 120); (email p, 160); (subject p, 180);
   (message p, 4000); (timestamp p, 80)].

(** A field that is absent, [null], or a string of white space only. *)
Definition blank_field (v : option value) : Prop :=
  v = None \/ v = Some VNull \/ exists s, v = Some (VString s) /\ forallb is_ws s = true.

(** Every field of the body can be coerced to text: [String] throws on none
    of the six. *)
Definition coercible (body : value) : Prop :=
  Forall (fun field => is_Some (field_text (get body field))) field_names.

(** An origin as the allow-list can hold it: not empty, without a comma and
    without white space around it. *)
Definition exact_origin (o : jsstring) : Prop :=
  o <> [] /\ (44%N ∉ o) /\ trim o = o.

(** The handler run on a list of requests one after another, each with its
    surroundings, from the state [st]. *)
Fixpoint serve (env : Env) (requests : list (Request * Ambient)) (st : State) : State :=
  match requests with
  | [] => st
  | (request, w) :: later => serve env later (final (fetch request env w st))
  end.

(** What holds of the two maps whatever has been served: counts are between 1
    and the maximum; every stored record has the status "accepted" and is
    kept under a sanitized request id, not empty and of at most 120 code
    units. *)
Definition well_kept (st : State) : Prop :=
  map_Forall (fun _ b => 1 <= count b <= 5) (rateBucket st)
  /\ map_Forall (fun k r => record_status r = str "accepted"
                            /\ k <> [] /\ Z.of_nat (length k) <= 120)
       (idempotencyStore st).

(** The outcomes of the runs of [serve], in order. *)
Fixpoint outcomes (env : Env) (requests : list (Request * Ambient)) (st : State)
    : list Outcome :=
  match requests with
  | [] => []
  | (request, w) :: later =>
      let o := fetch request env w st in
      o :: outcomes env later (final o)
  end.

(** A POST to [/contact] from an allowed origin, made by the client [k]. *)
Definition post_by (env : Env) (k : jsstring) (rw : Request * Ambient) : Prop :=
  pathname (fst rw) = str "/contact" /\ method (fst rw) = str "POST"
  /\ allowedOrigin (Origin (fst rw)) env = true /\ client_key (fst rw) = k.

(** A run that cannot disturb the record stored under [rid] that expires at
    [expiry]: its idempotency lookup happens no later than [expiry], or the
    body it carries is not a valid submission with the id [rid]. *)
Definition quiet (rid : jsstring) (expiry : Z) (rw : Request * Ambient) : Prop :=
  now_getIdempotent (snd rw) <= expiry
  \/ (forall body payload,
        request_json (fst rw) = Some body -> validateBody body = Some (Valid payload) ->
        requestId payload <> rid).

(** * Properties *)

(** ** Sanitizer *)

Section Sanitizer.

(** [String] on JSON values: an array joins its elements with commas, [null]
    elements giving nothing; an object without a property [toString] gives
    ["[object Object]"]; an object with one, also inside an array, makes the
    conversion throw. *)
Example toString_samples :
  toString (VArray [VNull; VArray [VBool true; VString (str "x")]; VObject []])
  = Some (str ",true,x,[object Object]")
  /\ toString (VObject [(str "valueOf", VNumber (str "1"))]) = Some (str "[object Object]")
  /\ toString (VObject [(str "toString", VNumber (str "1"))]) = None
  /\ toString (VArray [VNumber (str "1"); VObject [(str "toString", VNull)]]) = None
  /\ sanitizeText (Some (VArray [VObject [(str "toString", VNull)]])) 120 = None
  /\ sanitizeText (Some (VArray [VString (str " a  b "); VNull])) 120 = Some (str "a b ,")
  /\ sanitizeText None 120 = Some (str "")
  /\ sanitizeText (Some VNull) 120 = Some (str "").
Proof. repeat split; reflexivity. Qed.

Example is_ws_samples :
  List.map is_ws [9; 13; 14; 32; 65; 160; 8192; 8202; 8203; 12288; 65279]%N
  = [true; true; false; true; false; true; true; true; false; true; true].
Proof. reflexivity. Qed.

Example split_samples :
  split 44 (str "") = [str ""] /\ split 44 (str "a,b") = [str "a"; str "b"]
  /\ split 44 (str "a,") = [str "a"; str ""].
Proof. repeat split; reflexivity. Qed.

Example getAllowedOrigins_sample :
  getAllowedOrigins {| CONTACT_API_ENDPOINT := str "";
                       CONTACT_API_KEY := str "";
                       ALLOWED_ORIGINS := Some (str " https://a.example ,, https://b.example") |}
  = [str "https://a.example"; str "https://b.example"].
Proof. reflexivity. Qed.

Lemma collapsed_weaken b s : collapsed true s = true -> collapsed b s = true.
Proof.
  destruct s as [|c r]; simpl; [done|].
  destruct (is_ws c); [discriminate|done].
Qed.

Lemma replace_collapsed b s : collapsed b s = true -> replace_ws_runs b s = s.
Proof.
  revert b; induction s as [|c r IH]; intros b; simpl; [done|].
  destruct (is_ws c) eqn:Hc.
  - destruct b; simpl; [discriminate|].
    intros [Hc32 Hr]%andb_prop. apply N.eqb_eq in Hc32 as ->.
    by rewrite IH.
  - intros Hr. by rewrite IH.
Qed.

Lemma collapsed_replace_any b s : collapsed b (replace_ws_runs b s) = true.
Proof.
  revert b; induction s as [|c r IH]; intros b; simpl; [done|].
  destruct (is_ws c) eqn:Hc.
  - destruct b; [apply IH|]. simpl. apply IH.
  - simpl. rewrite Hc. apply IH.
Qed.

Lemma collapsed_app_l b s w : collapsed b (s ++ w) = true -> collapsed b s = true.
Proof.
  revert b; induction s as [|c r IH]; intros b; simpl; [done|].
  destruct (is_ws c).
  - intros [[-> ->]%andb_prop Hr]%andb_prop. simpl. eauto.
  - eauto.
Qed.

Lemma collapsed_take b k s : collapsed b s = true -> collapsed b (take k s) = true.
Proof.
  intros H. apply (collapsed_app_l b (take k s) (drop k s)).
  by rewrite take_drop.
Qed.

Lemma trimStart_suffix s : exists w, s = w ++ trimStart s.
Proof.
  induction s as [|c r [w IH]]; simpl.
  - by exists [].
  - destruct (is_ws c).
    + exists (c :: w). simpl. by f_equal.
    + by exists [].
Qed.

Lemma trimEnd_prefix s : exists w, s = trimEnd s ++ w.
Proof.
  destruct (trimStart_suffix (rev s)) as [w Hw].
  exists (rev w). unfold trimEnd.
  rewrite <- rev_app_distr, <- Hw. by rewrite rev_involutive.
Qed.

Lemma trimEnd_length s : (length (trimEnd s) <= length s)%nat.
Proof.
  destruct (trimEnd_prefix s) as [w Hw].
  rewrite Hw at 2. rewrite length_app. lia.
Qed.

Lemma trimStart_collapsed s : collapsed true s = true -> trimStart s = s.
Proof.
  destruct s as [|c r]; simpl; [done|].
  destruct (is_ws c); [discriminate|done].
Qed.

Lemma trimStart_head s :
  match trimStart s with c :: _ => is_ws c = false | [] => True end.
Proof.
  induction s as [|c r IH]; simpl; [done|].
  destruct (is_ws c) eqn:Hc; [done|]. simpl. done.
Qed.

Lemma trimEnd_ends_ws s : ends_ws s = false -> trimEnd s = s.
Proof.
  unfold ends_ws, trimEnd. intros H.
  destruct (rev s) as [|c r] eqn:Hs.
  - simpl. by rewrite <- (rev_involutive s), Hs.
  - simpl. rewrite H. by rewrite <- Hs, rev_involutive.
Qed.

(** Trimming leaves no white space in front, so the text that reaches
    [slice] is collapsed and starts with none. *)
Lemma trim_head s :
  match trim s with c :: _ => is_ws c = false | [] => True end.
Proof.
  unfold trim. pose proof (trimStart_head s) as H.
  destruct (trimEnd_prefix (trimStart s)) as [w Hw].
  destruct (trimEnd (trimStart s)) as [|c r]; [done|].
  rewrite Hw in H. exact H.
Qed.

Lemma replace_trim_collapsed s :
  collapsed true (replace_ws_runs false (trim s)) = true.
Proof.
  pose proof (trim_head s) as H.
  destruct (trim s) as [|c r]; simpl; [done|].
  rewrite H. simpl. rewrite H. apply collapsed_replace_any.
Qed.

Lemma slice0_take s (n : Z) : 0 <= n -> slice0 s n = take (Z.to_nat n) s.
Proof.
  intros Hn. unfold slice0.
  destruct (Z.ltb_spec n 0); [lia|].
  destruct (Z.min_spec n (Z.of_nat (length s))) as [[_ ->]|[Hle ->]]; [done|].
  rewrite Nat2Z.id. rewrite take_ge; [|done].
  rewrite take_ge; [done|lia].
Qed.

Lemma sanitizeText_unfold v n :
  sanitizeText v n
  = match field_text v with
    | Some text => Some (trim_replace_slice text n)
    | None => None
    end.
Proof. reflexivity. Qed.

Lemma sanitizeText_Some v n s :
  sanitizeText v n = Some s ->
  exists text, field_text v = Some text /\ s = trim_replace_slice text n.
Proof.
  rewrite sanitizeText_unfold. destruct (field_text v) as [text|]; [|discriminate].
  intros [= <-]. by exists text.
Qed.

Lemma sanitizeText_string x n :
  sanitizeText (Some (VString x)) n = Some (trim_replace_slice x n).
Proof. reflexivity. Qed.

Lemma trim_replace_slice_collapsed text n :
  collapsed true (trim_replace_slice text n) = true.
Proof.
  unfold trim_replace_slice, slice0. apply collapsed_take, replace_trim_collapsed.
Qed.

Lemma trim_replace_slice_length text n :
  0 <= n -> Z.of_nat (length (trim_replace_slice text n)) <= n.
Proof.
  intros Hn. unfold trim_replace_slice. rewrite slice0_take by done.
  rewrite length_take. lia.
Qed.

Lemma sanitizeText_collapsed v n s :
  sanitizeText v n = Some s -> collapsed true s = true.
Proof.
  intros (text & _ & ->)%sanitizeText_Some. apply trim_replace_slice_collapsed.
Qed.

Lemma sanitizeText_length v n s :
  0 <= n -> sanitizeText v n = Some s -> Z.of_nat (length s) <= n.
Proof.
  intros Hn (text & _ & ->)%sanitizeText_Some. by apply trim_replace_slice_length.
Qed.

(** Sanitizing a sanitized text again only trims its end. *)
Lemma sanitizeText_again v n s :
  0 <= n -> sanitizeText v n = Some s ->
  sanitizeText (Some (VString s)) n = Some (trimEnd s).
Proof.
  intros Hn Hs.
  pose proof (sanitizeText_collapsed v n s Hs) as Hc.
  pose proof (sanitizeText_length v n s Hn Hs) as Hl.
  rewrite sanitizeText_string. f_equal. unfold trim_replace_slice, trim.
  rewrite (trimStart_collapsed s Hc).
  destruct (trimEnd_prefix s) as [w Hw].
  assert (Ht : collapsed true (trimEnd s) = true).
  { apply (collapsed_app_l true _ w). by rewrite <- Hw. }
  rewrite (replace_collapsed false) by by apply collapsed_weaken.
  rewrite slice0_take by done.
  apply take_ge. pose proof (trimEnd_length s). lia.
Qed.

(** C3 (as amended): for every bound [n >= 0] and every value [v] that the
    sanitizer returns a text [s] for (it does for every string), sanitizing
    [s] again gives [s] with its end trimmed; so the sanitizer is idempotent
    at [v] and [n] whenever [s] does not end in white space, and a second
    pass differs from the first only by the space that truncation may leave
    at the end. *)
Theorem sanitizeText_idempotent_unless_trailing_space v n s :
  0 <= n ->
  sanitizeText v n = Some s ->
  sanitizeText (Some (VString s)) n = Some (trimEnd s)
  /\ (ends_ws s = false -> sanitizeText (Some (VString s)) n = Some s)
  /\ (forall x, exists s', sanitizeText (Some (VString x)) n = Some s').
Proof.
  intros Hn Hs. split; [|split].
  - by apply (sanitizeText_again v).
  - intros He. rewrite (sanitizeText_again v) by done. f_equal. by apply trimEnd_ends_ws.
  - intros x. eexists. apply sanitizeText_string.
Qed.

Lemma sanitizeText_idempotent_unless_trailing_space_witness :
  0 <= 10
  /\ sanitizeText (Some (VString (str "  a   b  "))) 10 = Some (str "a b")
  /\ ends_ws (str "a b") = false
  /\ sanitizeText (Some (VString (str "a b"))) 10 = Some (str "a b").
Proof.
  split; [lia|]. split; [reflexivity|]. split; [reflexivity|].
  apply (sanitizeText_idempotent_unless_trailing_space
           (Some (VString (str "  a   b  "))) 10 (str "a b")); [lia|reflexivity|reflexivity].
Defined.

(** C3 (as stated) fails: truncating ["a b"] to two code units leaves ["a "],
    whose trailing space the next pass trims. *)
Lemma sanitizeText_not_idempotent :
  sanitizeText (Some (VString (str "a b"))) 2 = Some (str "a ")
  /\ sanitizeText (Some (VString (str "a "))) 2 = Some (str "a")
  /\ sanitizeText (Some (VString (str "a "))) 2 <> sanitizeText (Some (VString (str "a b"))) 2.
Proof. split; [reflexivity|]. split; [reflexivity|]. vm_compute. discriminate. Qed.

(** *** The method chain does what the specification says *)

Lemma trimStart_blank_prefix s :
  exists w, s = w ++ trimStart s /\ forallb is_ws w = true.
Proof.
  induction s as [|c r (w & IH & Hw)]; simpl.
  - by exists [].
  - destruct (is_ws c) eqn:Hc.
    + exists (c :: w). simpl. rewrite Hc, Hw. split; [by f_equal|done].
    + by exists [].
Qed.

Lemma forallb_rev (p : N -> bool) w : forallb p (rev w) = forallb p w.
Proof.
  induction w as [|c w IH]; simpl; [done|].
  rewrite forallb_app, IH. simpl. rewrite andb_true_r. apply andb_comm.
Qed.

Lemma trimEnd_blank_suffix s :
  exists w, s = trimEnd s ++ w /\ forallb is_ws w = true.
Proof.
  destruct (trimStart_blank_prefix (rev s)) as (w & Hw & Hblank).
  exists (rev w). split; [|by rewrite forallb_rev].
  unfold trimEnd. rewrite <- rev_app_distr, <- Hw. by rewrite rev_involutive.
Qed.

Lemma ends_ws_trimEnd_false s : ends_ws (trimEnd s) = false.
Proof.
  unfold ends_ws, trimEnd. rewrite rev_involutive.
  pose proof (trimStart_head (rev s)) as H.
  by destruct (trimStart (rev s)).
Qed.

Lemma ends_ws_cons c d r : ends_ws (c :: d :: r) = ends_ws (d :: r).
Proof.
  unfold ends_ws. change (rev (c :: d :: r)) with (rev (d :: r) ++ [c]).
  destruct (rev (d :: r)) as [|e t] eqn:He; [|done].
  apply (f_equal (@length N)) in He. rewrite length_rev in He. discriminate.
Qed.

Lemma words_blank w : forallb is_ws w = true -> words w = [].
Proof.
  induction w as [|c w IH]; simpl; [done|].
  intros [-> Hw]%andb_prop. auto.
Qed.

Lemma starts_ws_blank w : forallb is_ws w = true -> starts_ws w = true.
Proof. destruct w as [|c w]; simpl; [done|]. by intros [-> _]%andb_prop. Qed.

Lemma words_app_blank s w : forallb is_ws w = true -> words (s ++ w) = words s.
Proof.
  intros Hw. induction s as [|c r IH]; simpl; [by apply words_blank|].
  destruct (is_ws c); [done|].
  assert (Hstart : starts_ws (r ++ w) = starts_ws r).
  { destruct r as [|d r']; [|done]. simpl. by apply starts_ws_blank. }
  by rewrite Hstart, IH.
Qed.

Lemma words_trimStart s : words (trimStart s) = words s.
Proof.
  induction s as [|c r IH]; simpl; [done|].
  destruct (is_ws c) eqn:Hc; [done|]. simpl. by rewrite Hc.
Qed.

Lemma words_trim s : words (trim s) = words s.
Proof.
  unfold trim. destruct (trimEnd_blank_suffix (trimStart s)) as (w & Hw & Hblank).
  rewrite <- (words_trimStart s). rewrite Hw at 2. by rewrite words_app_blank.
Qed.

Lemma words_cons_plain c r : is_ws c = false -> exists w ws, words (c :: r) = w :: ws.
Proof.
  intros Hc. simpl. rewrite Hc. destruct (starts_ws r); [eauto|].
  destruct (words r); eauto.
Qed.

Lemma words_nonempty s : s <> [] -> ends_ws s = false -> words s <> [].
Proof.
  induction s as [|c r IH]; [done|]. intros _ He.
  destruct (is_ws c) eqn:Hc.
  - simpl. rewrite Hc. destruct r as [|d r'].
    + unfold ends_ws in He. simpl in He. congruence.
    + apply IH; [done|]. by rewrite <- (ends_ws_cons c).
  - destruct (words_cons_plain c r Hc) as (w & ws & ->). done.
Qed.

Lemma join_cons_cons (sep x : jsstring) y l :
  join sep (x :: y :: l) = x ++ sep ++ join sep (y :: l).
Proof. reflexivity. Qed.

Lemma join_head (sep : jsstring) c w ws : join sep ((c :: w) :: ws) = c :: join sep (w :: ws).
Proof. destruct ws; reflexivity. Qed.

Lemma words_ws c r : is_ws c = true -> words (c :: r) = words r.
Proof. intros Hc. simpl. by rewrite Hc. Qed.

Lemma words_plain_ws c r :
  is_ws c = false -> starts_ws r = true -> words (c :: r) = [c] :: words r.
Proof. intros Hc Hr. simpl. by rewrite Hc, Hr. Qed.

Lemma words_plain_plain c r w ws :
  is_ws c = false -> starts_ws r = false -> words r = w :: ws ->
  words (c :: r) = (c :: w) :: ws.
Proof. intros Hc Hr Hw. simpl. by rewrite Hc, Hr, Hw. Qed.

Lemma replace_plain b c r :
  is_ws c = false -> replace_ws_runs b (c :: r) = c :: replace_ws_runs false r.
Proof. intros Hc. simpl. by rewrite Hc. Qed.

Lemma replace_ws_true c r :
  is_ws c = true -> replace_ws_runs true (c :: r) = replace_ws_runs true r.
Proof. intros Hc. simpl. by rewrite Hc. Qed.

Lemma replace_ws_false c r :
  is_ws c = true -> replace_ws_runs false (c :: r) = 32%N :: replace_ws_runs true r.
Proof. intros Hc. simpl. by rewrite Hc. Qed.

(** After white space, or at the start of a trimmed text, [replace] leaves
    the words with one space between them. *)
Lemma replace_words s :
  ends_ws s = false -> replace_ws_runs true s = join (str " ") (words s).
Proof.
  induction s as [|c r IH]; [done|]. intros He.
  destruct (is_ws c) eqn:Hc.
  - rewrite replace_ws_true, words_ws by done. destruct r as [|d r'].
    + unfold ends_ws in He. simpl in He. congruence.
    + apply IH. by rewrite <- (ends_ws_cons c).
  - rewrite replace_plain by done.
    destruct r as [|d r']; [simpl; by rewrite Hc|].
    rewrite ends_ws_cons in He. specialize (IH He).
    destruct (is_ws d) eqn:Hd.
    + rewrite words_plain_ws by done.
      rewrite replace_ws_false by done. rewrite replace_ws_true in IH by done. rewrite IH.
      pose proof (words_nonempty (d :: r') ltac:(done) He) as Hne.
      destruct (words (d :: r')) as [|w ws]; [done|]. reflexivity.
    + rewrite replace_plain in IH |- * by done. rewrite IH.
      destruct (words_cons_plain d r' Hd) as (w & ws & Hw).
      rewrite (words_plain_plain c (d :: r') w ws) by done.
      by rewrite Hw, join_head.
Qed.

Lemma replace_trim_words text :
  replace_ws_runs false (trim text) = join (str " ") (words text).
Proof.
  rewrite <- (words_trim text).
  pose proof (trim_head text) as Hhead.
  assert (He : ends_ws (trim text) = false) by apply ends_ws_trimEnd_false.
  rewrite <- (replace_words _ He).
  destruct (trim text) as [|c r]; [done|]. simpl. by rewrite Hhead.
Qed.

(** The chain of [trim], [replace] and [slice] is the specification's
    sanitizer, for every bound that is not negative. *)
Lemma trim_replace_slice_spec text n :
  0 <= n -> trim_replace_slice text n = sanitize_spec text (Z.to_nat n).
Proof.
  intros Hn. unfold trim_replace_slice, sanitize_spec.
  by rewrite slice0_take, replace_trim_words.
Qed.

End Sanitizer.

(** ** Regular expressions: [test] decides [Matches] *)

Section Regex.

Lemma Matches_nil_nullable r s : Matches r s -> s = [] -> nullable r = true.
Proof.
  induction 1 as [|p c Hp|r1 r2 s1 s2 _ IH1 _ IH2|r1 r2 s _ IH|r1 r2 s _ IH| |];
    intros Hs; simpl; try done.
  - apply app_eq_nil in Hs as [-> ->]. by rewrite IH1, IH2.
  - by rewrite IH.
  - rewrite IH by done. apply orb_true_r.
Qed.

Lemma nullable_Matches r : nullable r = true -> Matches r [].
Proof.
  induction r as [| |p|r1 IH1 r2 IH2|r1 IH1 r2 IH2|r IH]; simpl; try done.
  - intros _. constructor.
  - intros [H1 H2]%andb_prop. apply (MSeq r1 r2 [] []); auto.
  - intros [H|H]%orb_prop; [apply MAltL|apply MAltR]; auto.
  - intros _. constructor.
Qed.

Lemma Matches_Seq r1 r2 s :
  Matches (Seq r1 r2) s <-> exists s1 s2, s = s1 ++ s2 /\ Matches r1 s1 /\ Matches r2 s2.
Proof.
  split.
  - inversion 1; subst. eauto.
  - intros (s1 & s2 & -> & H1 & H2). by constructor.
Qed.

Lemma Matches_Alt r1 r2 s : Matches (Alt r1 r2) s <-> Matches r1 s \/ Matches r2 s.
Proof.
  split.
  - inversion 1; subst; auto.
  - intros [H|H]; [by apply MAltL|by apply MAltR].
Qed.

Lemma Matches_deriv c r s' : Matches r s' -> forall s, s' = c :: s -> Matches (deriv c r) s.
Proof.
  induction 1 as [|p c' Hp|r1 r2 s1 s2 H1 IH1 H2 IH2|r1 r2 s1 _ IH|r1 r2 s1 _ IH|
                  |r s1 s2 H1 IH1 H2 IH2]; intros s Hs; simpl.
  - discriminate.
  - injection Hs as -> <-. rewrite Hp. constructor.
  - destruct s1 as [|c1 s1]; simpl in Hs.
    + subst s2. rewrite (Matches_nil_nullable r1 [] H1 eq_refl).
      apply MAltR. by apply IH2.
    + injection Hs as -> <-.
      assert (Matches (Seq (deriv c r1) r2) (s1 ++ s2)) by (constructor; auto).
      destruct (nullable r1); [by apply MAltL|done].
  - apply MAltL. auto.
  - apply MAltR. auto.
  - discriminate.
  - destruct s1 as [|c1 s1]; simpl in Hs.
    + subst s2. by apply IH2.
    + injection Hs as -> <-. constructor; auto.
Qed.

Lemma deriv_Matches c r : forall s, Matches (deriv c r) s -> Matches r (c :: s).
Proof.
  induction r as [| |p|r1 IH1 r2 IH2|r1 IH1 r2 IH2|r IH]; simpl; intros s H.
  - inversion H.
  - inversion H.
  - destruct (p c) eqn:Hp; inversion H; subst. by constructor.
  - assert (Hseq : Matches (Seq (deriv c r1) r2) s -> Matches (Seq r1 r2) (c :: s)).
    { intros (s1 & s2 & -> & Hd & H2)%Matches_Seq.
      apply (MSeq r1 r2 (c :: s1) s2); auto. }
    destruct (nullable r1) eqn:Hn; [|auto].
    apply Matches_Alt in H as [H|H]; [auto|].
    apply (MSeq r1 r2 [] (c :: s)); [by apply nullable_Matches|auto].
  - apply Matches_Alt in H as [H|H]; [apply MAltL|apply MAltR]; auto.
  - apply Matches_Seq in H as (s1 & s2 & -> & Hd & H2).
    apply (MStarApp r (c :: s1) s2); auto.
Qed.

Lemma test_Matches r s : test r s = true <-> Matches r s.
Proof.
  revert r; induction s as [|c s IH]; intros r; simpl.
  - split; [apply nullable_Matches|]. intros H. by apply (Matches_nil_nullable r []).
  - rewrite IH. split; [apply deriv_Matches|]. intros H. by apply (Matches_deriv c r (c :: s)).
Qed.

Lemma Matches_Class p s : Matches (Class p) s <-> exists c, s = [c] /\ p c = true.
Proof.
  split.
  - inversion 1; subst. eauto.
  - intros (c & -> & Hp). by constructor.
Qed.

Lemma Matches_Lit c s : Matches (Lit c) s <-> s = [c].
Proof.
  unfold Lit. rewrite Matches_Class. split.
  - intros (c' & -> & ->%N.eqb_eq). done.
  - intros ->. exists c. by rewrite N.eqb_refl.
Qed.

Lemma Matches_Star_Class p s : Matches (Star (Class p)) s <-> forallb p s = true.
Proof.
  split.
  - intros H. remember (Star (Class p)) as r eqn:Hr.
    induction H as [| | | | | |r s1 s2 H1 _ H2 IH2]; try discriminate; [done|].
    injection Hr as ->. apply Matches_Class in H1 as (c & -> & Hp).
    simpl. rewrite Hp. by apply IH2.
  - induction s as [|c s IH]; simpl; [constructor|].
    intros [Hp Hs]%andb_prop.
    apply (MStarApp (Class p) [c] s); [by constructor|auto].
Qed.

Lemma Matches_Plus_Class p s :
  Matches (Plus (Class p)) s <-> s <> [] /\ forallb p s = true.
Proof.
  unfold Plus. rewrite Matches_Seq. split.
  - intros (s1 & s2 & -> & (c & -> & Hp)%Matches_Class & H2%Matches_Star_Class).
    simpl. by rewrite Hp, H2.
  - intros [Hne Hs]. destruct s as [|c s]; [done|].
    simpl in Hs. apply andb_prop in Hs as [Hp Hs].
    exists [c], s. split; [done|]. split; [by constructor|by apply Matches_Star_Class].
Qed.

End Regex.

(** ** Validator *)

Section Validator.

Lemma not_space_at_plain c : not_space_at c = true <-> plain c.
Proof.
  unfold not_space_at, plain. rewrite negb_true_iff, orb_false_iff, N.eqb_neq. done.
Qed.

Lemma forallb_plain s : forallb not_space_at s = true <-> Forall plain s.
Proof.
  rewrite forallb_forall, List.Forall_forall.
  split; intros H c Hc; apply not_space_at_plain; auto.
Qed.

Lemma Matches_plain s : Matches (Plus (Class not_space_at)) s <-> one_or_more_plain s.
Proof. unfold one_or_more_plain. by rewrite Matches_Plus_Class, forallb_plain. Qed.

(** The pattern of the source accepts exactly the addresses of that shape. *)
Lemma emailRegex_shape s : test emailRegex s = true <-> email_shape s.
Proof.
  rewrite test_Matches. unfold emailRegex, email_shape. split.
  - intros (a & s1 & -> & Ha%Matches_plain
            & (at_ & s2 & -> & ->%Matches_Lit
            & (b & s3 & -> & Hb%Matches_plain
            & (dot & c & -> & ->%Matches_Lit & Hc%Matches_plain)%Matches_Seq
              )%Matches_Seq)%Matches_Seq)%Matches_Seq.
    by exists a, b, c.
  - intros (a & b & c & -> & Ha & Hb & Hc).
    repeat (apply MSeq; [first [by apply Matches_plain | by apply Matches_Lit]|]).
    by apply Matches_plain.
Qed.

Lemma truthy_str_nil s : truthy_str s = false <-> s = [].
Proof. by destruct s. Qed.

Lemma is_object_spec body :
  is_object body = negb (negb (truthy body) || negb (typeof_object body)).
Proof. destruct body; simpl; by rewrite ?orb_true_r. Qed.

Lemma some_field_empty_iff p : some_field_empty_b p = true <-> some_field_empty p.
Proof.
  unfold some_field_empty_b, some_field_empty.
  rewrite !orb_true_iff, !negb_true_iff, !truthy_str_nil. tauto.
Qed.

Lemma validateBody_unfold body :
  validateBody body =
    if negb (is_object body) then Some (Invalid (str "Invalid payload."))
    else match sanitized body with
         | None => None
         | Some p =>
             Some (if some_field_empty_b p then Invalid (str "Missing required fields.")
                   else if negb (test emailRegex (email p)) then Invalid (str "Invalid email.")
                   else Valid p)
         end.
Proof.
  unfold validateBody, sanitized. rewrite is_object_spec, negb_involutive.
  destruct (negb (truthy body) || negb (typeof_object body)); cbn [negb]; [done|].
  rewrite !sanitizeText_unfold.
  destruct (field_text (get body (str "requestId"))) as [t1|]; [|done].
  destruct (field_text (get body (str "name"))) as [t2|]; [|done].
  destruct (field_text (get body (str "email"))) as [t3|]; [|done].
  destruct (field_text (get body (str "subject"))) as [t4|]; [|done].
  destruct (field_text (get body (str "message"))) as [t5|]; [|done].
  destruct (field_text (get body (str "timestamp"))) as [t6|]; [|done].
  cbn [mbind option_bind].
  rewrite !trim_replace_slice_spec by lia.
  change (Z.to_nat 120) with 120%nat. change (Z.to_nat 160) with 160%nat.
  change (Z.to_nat 180) with 180%nat. change (Z.to_nat 4000) with 4000%nat.
  change (Z.to_nat 80) with 80%nat.
  cbn [requestId name email subject message timestamp]. unfold some_field_empty_b.
  cbn [requestId name email subject message timestamp].
  destruct (_ || _); [done|]. by destruct (negb _).
Qed.

Ltac distinct_errors :=
  match goal with
  | H : Some (Invalid _) = Some (Invalid _) |- _ => by vm_compute in H
  | H : Invalid _ = Invalid _ |- _ => by vm_compute in H
  | H : Some _ = Some _ |- _ => discriminate H
  | H : Some _ = None |- _ => discriminate H
  | H : None = Some _ |- _ => discriminate H
  end.

(** What the validator does with every body.  A body that is absent or
    not an object is rejected as an invalid payload.  Otherwise each of the
    six fields is coerced to text and sanitized (trimmed, white space
    collapsed, truncated) with the bounds 120, 120, 160, 180, 4000 and 80:
    the validator rejects for missing fields exactly when a sanitized field
    is empty, rejects for an invalid address exactly when no field is empty
    and the address is not of the shape [x@y.z] (each part one or more
    characters that are neither white space nor [@]), and otherwise returns
    the sanitized payload.  The pattern accepts [a@b.co] and rejects [abc],
    [a@b], [@b.co] and the empty text, and so does the validator.  The
    verdicts are given exactly when every field can be coerced: on a body one
    of whose fields is an object with a property [toString], the validator
    throws instead of rejecting it. *)
Theorem validateBody_spec body :
  (validateBody body = Some (Invalid (str "Invalid payload.")) <-> is_object body = false)
  /\ (validateBody body = Some (Invalid (str "Missing required fields."))
      <-> is_object body = true
          /\ exists p, sanitized body = Some p /\ some_field_empty p)
  /\ (validateBody body = Some (Invalid (str "Invalid email."))
      <-> is_object body = true
          /\ exists p, sanitized body = Some p /\ ~ some_field_empty p
                       /\ ~ email_shape (email p))
  /\ (forall p, validateBody body = Some (Valid p)
      <-> is_object body = true /\ sanitized body = Some p
          /\ ~ some_field_empty p /\ email_shape (email p))
  /\ (validateBody body = None <-> is_object body = true /\ sanitized body = None)
  /\ (test emailRegex (str "a@b.co") = true
      /\ test emailRegex (str "abc") = false /\ test emailRegex (str "a@b") = false
      /\ test emailRegex (str "@b.co") = false /\ test emailRegex (str "") = false)
  /\ (validateBody (submission "r-1" "a@b.co") = Some (Valid (submitted "r-1" "a@b.co"))
      /\ validateBody (submission "r-1" "abc") = Some (Invalid (str "Invalid email."))
      /\ validateBody (submission "r-1" "a@b") = Some (Invalid (str "Invalid email."))
      /\ validateBody (submission "r-1" "@b.co") = Some (Invalid (str "Invalid email."))
      /\ validateBody (submission "r-1" "") = Some (Invalid (str "Missing required fields."))
      /\ validateBody (submission "  r   1 " " a@b.co ") = Some (Valid (submitted "r 1" "a@b.co"))
      /\ validateBody hostile_submission = None).
Proof.
  rewrite validateBody_unfold.
  destruct (is_object body); cbn [negb].
  2: { repeat split; try reflexivity;
       try (intros; intuition (try distinct_errors; try congruence)). }
  destruct (sanitized body) as [q|].
  2: { repeat split; try reflexivity;
       try (intros; intuition (try distinct_errors; try congruence)).
       all: match goal with
            | H : exists _, _ |- _ => destruct H as (p' & Hp' & _); discriminate Hp'
            end. }
  pose proof (some_field_empty_iff q) as He.
  pose proof (emailRegex_shape (email q)) as Hm.
  set (e := some_field_empty_b q) in *.
  set (m := test emailRegex (email q)) in *.
  destruct e, m; cbn [negb].
  all: repeat split; try reflexivity.
  all: try (intros; intuition (try distinct_errors; try congruence)).
  all: try (by exists q; intuition congruence).
  all: try (match goal with
            | H : exists _, _ |- _ => destruct H as (p' & [= <-] & ?); intuition congruence
            end).
  all: try (match goal with
            | H : Some (Valid _) = Some (Valid _) |- _ => by injection H as ->
            end).
  all: simplify_eq; intuition congruence.
Qed.

End Validator.

(** ** Rate limiter *)

Section RateLimiter.

Implicit Types (rateBucket : gmap jsstring Bucket) (clientKey : jsstring) (now : Z).

Lemma rateLimited_open now clientKey rateBucket :
  opens_window now clientKey rateBucket ->
  rateLimited now clientKey rateBucket
  = (false, <[clientKey := {| count := 1; resetAt := now + 60000 |}]> rateBucket).
Proof.
  unfold opens_window, rateLimited. destruct (rateBucket !! clientKey) as [b|]; [|done].
  intros H. destruct (Z.gtb_spec now (resetAt b)); [done|lia].
Qed.

Lemma rateLimited_count now clientKey rateBucket existing :
  rateBucket !! clientKey = Some existing ->
  now <= resetAt existing -> count existing < 5 ->
  rateLimited now clientKey rateBucket
  = (false, <[clientKey := {| count := count existing + 1;
                              resetAt := resetAt existing |}]> rateBucket).
Proof.
  unfold rateLimited. intros -> Hnow Hcount.
  destruct (Z.gtb_spec now (resetAt existing)); [lia|].
  unfold RATE_MAX. destruct (Z.geb_spec (count existing) 5); [lia|done].
Qed.

Lemma rateLimited_full now clientKey rateBucket existing :
  rateBucket !! clientKey = Some existing ->
  now <= resetAt existing -> 5 <= count existing ->
  rateLimited now clientKey rateBucket = (true, rateBucket).
Proof.
  unfold rateLimited. intros -> Hnow Hcount.
  destruct (Z.gtb_spec now (resetAt existing)); [lia|].
  unfold RATE_MAX. destruct (Z.geb_spec (count existing) 5); [done|lia].
Qed.

(** A call leaves the buckets of the other clients alone. *)
Lemma rateLimited_other now clientKey other rateBucket :
  other <> clientKey ->
  snd (rateLimited now clientKey rateBucket) !! other = rateBucket !! other.
Proof.
  intros Hne. unfold rateLimited.
  destruct (rateBucket !! clientKey) as [b|]; [|by apply lookup_insert_ne].
  destruct (now >? resetAt b); [by apply lookup_insert_ne|].
  destruct (count b >=? RATE_MAX); [done|by apply lookup_insert_ne].
Qed.

(** A call within the window that finds [n] requests counted, [n < 5]. *)
Lemma rateLimited_nth now clientKey rateBucket n reset :
  now <= reset -> n < 5 ->
  rateLimited now clientKey (<[clientKey := {| count := n; resetAt := reset |}]> rateBucket)
  = (false, <[clientKey := {| count := n + 1; resetAt := reset |}]> rateBucket).
Proof.
  intros Hnow Hn.
  rewrite (rateLimited_count now clientKey _ {| count := n; resetAt := reset |});
    [|apply lookup_insert_eq|done|done].
  by rewrite insert_insert_eq.
Qed.

(** C2: for a fixed client, a call that opens a window at [t1] and the four
    calls that follow it within the window ([t2] .. [t5] not after
    [t1 + 60000]) are not limited; a sixth call within the window is limited
    and leaves the map as it was, the bucket still resetting at
    [t1 + 60000]; a call at [t7 > t1 + 60000] is not limited and resets the
    bucket to count 1 and reset time [t7 + 60000]. *)
Theorem rate_window clientKey rateBucket t1 t2 t3 t4 t5 t6 t7 :
  opens_window t1 clientKey rateBucket ->
  t2 <= t1 + 60000 -> t3 <= t1 + 60000 -> t4 <= t1 + 60000 ->
  t5 <= t1 + 60000 -> t6 <= t1 + 60000 -> t1 + 60000 < t7 ->
  let first5 := rateLimited_each [t1; t2; t3; t4; t5] clientKey rateBucket in
  let sixth := rateLimited t6 clientKey (snd first5) in
  let seventh := rateLimited t7 clientKey (snd sixth) in
  RATE_MAX = 5 /\ RATE_WINDOW_MS = 60000
  /\ fst first5 = [false; false; false; false; false]
  /\ snd first5 !! clientKey = Some {| count := 5; resetAt := t1 + 60000 |}
  /\ fst sixth = true
  /\ snd sixth = snd first5
  /\ fst seventh = false
  /\ snd seventh = <[clientKey := {| count := 1; resetAt := t7 + 60000 |}]> (snd first5).
Proof.
  intros Hopen H2 H3 H4 H5 H6 H7. cbn zeta.
  assert (Hfirst : rateLimited_each [t1; t2; t3; t4; t5] clientKey rateBucket
                   = ([false; false; false; false; false],
                      <[clientKey := {| count := 5; resetAt := t1 + 60000 |}]> rateBucket)).
  { cbn [rateLimited_each]. rewrite rateLimited_open by done.
    do 4 (rewrite rateLimited_nth by lia). done. }
  rewrite Hfirst. cbn [fst snd].
  rewrite (rateLimited_full t6 clientKey _ {| count := 5; resetAt := t1 + 60000 |});
    [|apply lookup_insert_eq|done|done].
  cbn [fst snd]. rewrite rateLimited_open.
  - rewrite lookup_insert_eq. by rewrite insert_insert_eq.
  - unfold opens_window. rewrite lookup_insert_eq. simpl. lia.
Qed.

Lemma rate_window_witness :
  let first5 := rateLimited_each [1000; 2000; 3000; 4000; 61000] (str "203.0.113.7") ∅ in
  let sixth := rateLimited 61000 (str "203.0.113.7") (snd first5) in
  let seventh := rateLimited 61001 (str "203.0.113.7") (snd sixth) in
  RATE_MAX = 5 /\ RATE_WINDOW_MS = 60000
  /\ fst first5 = [false; false; false; false; false]
  /\ snd first5 !! str "203.0.113.7" = Some {| count := 5; resetAt := 1000 + 60000 |}
  /\ fst sixth = true
  /\ snd sixth = snd first5
  /\ fst seventh = false
  /\ snd seventh
     = <[str "203.0.113.7" := {| count := 1; resetAt := 61001 + 60000 |}]> (snd first5).
Proof.
  apply (rate_window (str "203.0.113.7") ∅ 1000 2000 3000 4000 61000 61000 61001);
    [exact I|lia..].
Defined.

(** Every call keeps the counts between 1 and the maximum. *)
Lemma rateLimited_counts now clientKey rateBucket :
  map_Forall (fun _ b => 1 <= count b <= 5) rateBucket ->
  map_Forall (fun _ b => 1 <= count b <= 5) (snd (rateLimited now clientKey rateBucket)).
Proof.
  intros Hinv. unfold rateLimited.
  destruct (rateBucket !! clientKey) as [b|] eqn:Hb; cbn [snd].
  - pose proof (Hinv _ _ Hb) as Hcount. cbn beta in Hcount.
    destruct (now >? resetAt b); cbn [snd].
    + apply map_Forall_insert_2; [simpl; lia|done].
    + unfold RATE_MAX. destruct (Z.geb_spec (count b) 5); cbn [snd]; [done|].
      apply map_Forall_insert_2; [simpl; lia|done].
  - apply map_Forall_insert_2; [simpl; lia|done].
Qed.

Lemma reachable_counts rateBucket :
  reachable rateBucket -> map_Forall (fun _ b => 1 <= count b <= 5) rateBucket.
Proof.
  induction 1 as [|now clientKey rateBucket _ IH]; [apply map_Forall_empty|].
  by apply rateLimited_counts.
Qed.

Lemma reachable_each times clientKey rateBucket :
  reachable rateBucket -> reachable (snd (rateLimited_each times clientKey rateBucket)).
Proof.
  revert rateBucket. induction times as [|now later IH]; intros rateBucket Hreach; [done|].
  cbn [rateLimited_each].
  pose proof (reachable_call now clientKey rateBucket Hreach) as Hnext.
  destruct (rateLimited now clientKey rateBucket) as [limited buckets]. cbn [snd] in Hnext.
  specialize (IH buckets Hnext). by destruct (rateLimited_each later clientKey buckets).
Qed.

(** C8: in every state the rate limiter can reach, every bucket has
    [count <= 5]: a call that finds the count at the maximum within the
    window is rejected and changes nothing; and a call that finds
    [now > resetAt] resets the bucket to count 1 and reset time
    [now + 60000].  Every call, for any client at any time, leaves the client
    a bucket with a count from 1 to 5: it is rejected exactly when it finds
    the client's count at 5 within the window, and then the map stays as it
    is; otherwise the client's bucket is the counted one (the count one
    higher within the window, a new window with count 1 after it or for a
    client without a bucket). *)
Theorem rate_invariant rateBucket :
  reachable rateBucket ->
  map_Forall (fun _ b => count b <= 5) rateBucket
  /\ (forall now clientKey existing,
        rateBucket !! clientKey = Some existing ->
        now <= resetAt existing -> count existing = 5 ->
        rateLimited now clientKey rateBucket = (true, rateBucket))
  /\ (forall now clientKey existing,
        rateBucket !! clientKey = Some existing ->
        now > resetAt existing ->
        rateLimited now clientKey rateBucket
        = (false, <[clientKey := {| count := 1; resetAt := now + 60000 |}]> rateBucket))
  /\ (forall now clientKey,
        let limited := fst (rateLimited now clientKey rateBucket) in
        let buckets := snd (rateLimited now clientKey rateBucket) in
        (limited = true
         <-> exists existing, rateBucket !! clientKey = Some existing
                              /\ now <= resetAt existing /\ count existing = 5)
        /\ (limited = true -> buckets = rateBucket)
        /\ (limited = false
            -> buckets = <[clientKey := counted now (rateBucket !! clientKey)]> rateBucket)
        /\ exists b, buckets !! clientKey = Some b /\ 1 <= count b <= 5).
Proof.
  intros Hreach. pose proof (reachable_counts rateBucket Hreach) as Hcounts.
  split; [|split; [|split]].
  - intros k b Hb. specialize (Hcounts k b Hb). cbn beta in Hcounts. cbn beta. lia.
  - intros now clientKey existing Hb Hnow Hcount.
    apply (rateLimited_full now clientKey rateBucket existing); [done|done|lia].
  - intros now clientKey existing Hb Hnow.
    apply rateLimited_open. unfold opens_window. by rewrite Hb.
  - intros now clientKey. cbn zeta. unfold rateLimited, counted.
    destruct (rateBucket !! clientKey) as [existing|] eqn:Hb.
    + pose proof (Hcounts clientKey existing Hb) as Hcount. cbn beta in Hcount.
      destruct (Z.gtb_spec now (resetAt existing)) as [Hnow|Hnow]; cbn [fst snd].
      * split; [split; [done|intros (e & [= <-] & ? & _); lia]|].
        split; [done|]. split; [done|].
        eexists. rewrite lookup_insert_eq. split; [reflexivity|]. simpl. lia.
      * unfold RATE_MAX.
        destruct (Z.geb_spec (count existing) 5) as [Hfull|Hfull]; cbn [fst snd].
        -- split; [split; [intros _; exists existing; repeat split; [done|lia]|done]|].
           split; [done|]. split; [done|]. exists existing. split; [done|lia].
        -- split; [split; [done|intros (e & [= <-] & _ & ?); lia]|].
           split; [done|]. split; [done|].
           eexists. rewrite lookup_insert_eq. split; [reflexivity|]. simpl. lia.
    + cbn [fst snd]. split; [split; [done|intros (e & ? & _); done]|].
      split; [done|]. split; [done|].
      eexists. rewrite lookup_insert_eq. split; [reflexivity|]. simpl. lia.
Qed.

Lemma rate_invariant_witness :
  let k := str "203.0.113.7" in
  let full := snd (rateLimited_each [1000; 1001; 1002; 1003; 1004] k ∅) in
  full !! k = Some {| count := 5; resetAt := 61000 |}
  /\ map_Forall (fun _ b => count b <= 5) full
  /\ rateLimited 61000 k full = (true, full)
  /\ rateLimited 61001 k full
     = (false, <[k := {| count := 1; resetAt := 61001 + 60000 |}]> full)
  /\ (exists b, snd (rateLimited 2000 (str "198.51.100.2") full) !! str "198.51.100.2" = Some b
                /\ 1 <= count b <= 5).
Proof.
  cbn zeta.
  destruct (rate_invariant
              (snd (rateLimited_each [1000; 1001; 1002; 1003; 1004] (str "203.0.113.7") ∅))
              (reachable_each [1000; 1001; 1002; 1003; 1004] (str "203.0.113.7") ∅
                 reachable_empty))
    as (Hbound & Hfull & Hreset & Hcall).
  split; [reflexivity|]. split; [exact Hbound|].
  split; [apply (Hfull 61000 (str "203.0.113.7") {| count := 5; resetAt := 61000 |});
          [reflexivity|simpl; lia|reflexivity]|].
  split; [apply (Hreset 61001 (str "203.0.113.7") {| count := 5; resetAt := 61000 |});
          [reflexivity|simpl; lia]|].
  apply (Hcall 2000 (str "198.51.100.2")).
Defined.

End RateLimiter.

(** ** Origin guard *)

Section OriginGuard.

Lemma getAllowedOrigins_truthy o env : o ∈ getAllowedOrigins env -> truthy_str o = true.
Proof.
  unfold getAllowedOrigins. rewrite list_elem_of_In, filter_In. tauto.
Qed.

Lemma allowedOrigin_listed origin env : allowedOrigin origin env = true <-> listed origin env.
Proof.
  unfold allowedOrigin, listed. split.
  - destruct origin as [o|]; [|done].
    destruct (truthy_str o); [|done]. cbn [negb].
    intros H%bool_decide_eq_true. eauto.
  - intros (o & -> & Ho). rewrite (getAllowedOrigins_truthy o env Ho). cbn [negb].
    by apply bool_decide_eq_true.
Qed.

Lemma allowedOrigin_not_listed origin env :
  allowedOrigin origin env = false <-> ~ listed origin env.
Proof.
  rewrite <- allowedOrigin_listed. destruct (allowedOrigin origin env); split; congruence.
Qed.

Lemma trimStart_blank s : forallb is_ws s = true -> trimStart s = [].
Proof.
  induction s as [|c r IH]; simpl; [done|].
  intros [-> Hr]%andb_prop. auto.
Qed.

Lemma trim_blank s : forallb is_ws s = true -> trim s = [].
Proof. intros H. unfold trim. by rewrite trimStart_blank. Qed.

Lemma split_blank s :
  Forall (fun c => c = 44%N \/ is_ws c = true) s ->
  Forall (fun piece => forallb is_ws piece = true) (split 44 s).
Proof.
  induction 1 as [|c r Hc _ IH]; simpl; [by repeat constructor|].
  destruct (N.eqb_spec c 44) as [->|Hne].
  - by constructor.
  - destruct Hc as [?|Hc]; [done|].
    destruct (split 44 r) as [|piece rest].
    + repeat constructor. simpl. by rewrite Hc.
    + apply Forall_cons in IH as [Hp Hrest].
      constructor; [|done]. simpl. by rewrite Hc.
Qed.

Lemma filter_trim_blank pieces :
  Forall (fun piece => forallb is_ws piece = true) pieces ->
  List.filter truthy_str (List.map trim pieces) = [].
Proof.
  induction 1 as [|piece rest Hp _ IH]; simpl; [done|].
  by rewrite trim_blank.
Qed.

Lemma getAllowedOrigins_blank env : blank_origins env -> getAllowedOrigins env = [].
Proof.
  unfold blank_origins, getAllowedOrigins.
  destruct (ALLOWED_ORIGINS env) as [s|]; [|done].
  intros Hs. destruct s as [|c r]; [done|]. cbn [truthy_str].
  by apply filter_trim_blank, split_blank.
Qed.

Lemma headers_json_cors data code origin :
  headers (json data code (cors origin)) = plain_headers ++ cors origin.
Proof. reflexivity. Qed.

End OriginGuard.

(** ** Request handler *)

Section Handler.

Implicit Types (request : Request) (env : Env) (w : Ambient) (st : State).

Lemma not_OPTIONS : str "POST" <> str "OPTIONS".
Proof. by vm_compute. Qed.

(** A POST to [/contact] passes the routing and method checks. *)
Lemma fetch_post request env w st :
  pathname request = str "/contact" -> method request = str "POST" ->
  fetch request env w st =
    if negb (allowedOrigin (Origin request) env) then
      {| response := Some (json (error_body (str "Origin not allowed.")) 403 []);
         final := st; effects := [] |}
    else
      let (limited, buckets) :=
        rateLimited (now_rateLimited w) (client_key request) (rateBucket st) in
      let st1 := {| rateBucket := buckets; idempotencyStore := idempotencyStore st |} in
      if limited then
        {| response := Some (json (error_body (str "Rate limit exceeded.")) 429 (cors (Origin request)));
           final := st1; effects := [] |}
      else
        match request_json request with
        | None =>
            {| response := Some (json (error_body (str "Invalid JSON.")) 400 (cors (Origin request)));
               final := st1; effects := [] |}
        | Some body =>
            match validateBody body with
            | None => {| response := None; final := st1; effects := [] |}
            | Some (Invalid error) =>
                {| response := Some (json (error_body error) 400 (cors (Origin request)));
                   final := st1; effects := [] |}
            | Some (Valid payload) =>
                from_lookup (Origin request) env w buckets (idempotencyStore st) payload
            end
        end.
Proof.
  intros Hpath Hmethod. unfold fetch, from_lookup. rewrite Hpath, Hmethod.
  rewrite (bool_decide_eq_true_2 (str "/contact" = str "/contact")) by done.
  rewrite (bool_decide_eq_false_2 (str "POST" = str "OPTIONS")) by apply not_OPTIONS.
  rewrite (bool_decide_eq_true_2 (str "POST" = str "POST")) by done.
  cbn [negb]. reflexivity.
Qed.

Lemma fetch_options request env w st :
  pathname request = str "/contact" -> method request = str "OPTIONS" ->
  fetch request env w st =
    if negb (allowedOrigin (Origin request) env) then
      {| response := Some (json (error_body (str "Origin not allowed.")) 403 []);
         final := st; effects := [] |}
    else
      {| response := Some {| body := None; status := 204; headers := cors (Origin request) |};
         final := st; effects := [] |}.
Proof.
  intros Hpath Hmethod. unfold fetch. rewrite Hpath, Hmethod.
  rewrite (bool_decide_eq_true_2 (str "/contact" = str "/contact")) by done.
  rewrite (bool_decide_eq_true_2 (str "OPTIONS" = str "OPTIONS")) by done.
  reflexivity.
Qed.

Lemma fetch_lookup request env w st payload :
  reaches_lookup request env w st payload ->
  fetch request env w st =
    from_lookup (Origin request) env w
      (snd (rateLimited (now_rateLimited w) (client_key request) (rateBucket st)))
      (idempotencyStore st) payload.
Proof.
  intros (Hpath & Hmethod & Horigin & Hlimit & body & Hbody & Hvalid).
  rewrite fetch_post by done. rewrite Horigin. cbn [negb].
  destruct (rateLimited _ _ _) as [limited buckets]. simpl in Hlimit. subst limited.
  by rewrite Hbody, Hvalid.
Qed.

Lemma allowedOrigin_blank origin env : blank_origins env -> allowedOrigin origin env = false.
Proof.
  intros Hb. apply allowedOrigin_not_listed. intros (o & _ & Ho).
  rewrite (getAllowedOrigins_blank env Hb) in Ho. by apply elem_of_nil in Ho.
Qed.

(** C10: when [ALLOWED_ORIGINS] is unset, empty, or only commas and white
    space, the allow-list is empty and every OPTIONS and every POST request to
    [/contact] is answered 403 "Origin not allowed.", whatever its [Origin]
    header, and nothing else happens. *)
Theorem closed_without_origins request env w st :
  blank_origins env ->
  pathname request = str "/contact" ->
  method request = str "OPTIONS" \/ method request = str "POST" ->
  getAllowedOrigins env = []
  /\ fetch request env w st
     = {| response := Some {| status := 403;
                        headers := plain_headers;
                        body := Some (error_body (str "Origin not allowed.")) |};
          final := st; effects := [] |}.
Proof.
  intros Hb Hpath Hmethod. split; [by apply getAllowedOrigins_blank|].
  destruct Hmethod as [Hm|Hm].
  - rewrite fetch_options by done. by rewrite allowedOrigin_blank.
  - rewrite fetch_post by done. by rewrite allowedOrigin_blank.
Qed.

Lemma closed_without_origins_witness :
  getAllowedOrigins
    {| CONTACT_API_ENDPOINT := str "https://api.example/messages";
       CONTACT_API_KEY := str "s3cret";
       ALLOWED_ORIGINS := Some (str " , ,, ") |} = []
  /\ fetch (request_of "POST" (Some (str "https://site.example")) None)
       {| CONTACT_API_ENDPOINT := str "https://api.example/messages";
          CONTACT_API_KEY := str "s3cret";
          ALLOWED_ORIGINS := Some (str " , ,, ") |}
       (calm 1000 Throws) initial
     = {| response := Some {| status := 403;
                        headers := plain_headers;
                        body := Some (error_body (str "Origin not allowed.")) |};
          final := initial; effects := [] |}.
Proof.
  apply (closed_without_origins
           (request_of "POST" (Some (str "https://site.example")) None)
           {| CONTACT_API_ENDPOINT := str "https://api.example/messages";
              CONTACT_API_KEY := str "s3cret";
              ALLOWED_ORIGINS := Some (str " , ,, ") |}
           (calm 1000 Throws) initial).
  - unfold blank_origins. simpl. repeat constructor; (by left) || (by right).
  - reflexivity.
  - right. reflexivity.
Defined.

(** C7 (as amended): for every OPTIONS or POST request to [/contact]: if the
    [Origin] header is absent or not exactly an entry of the allow-list, the
    response is 403 with no CORS header; if it is an entry, every response
    the handler returns has the CORS headers, [access-control-allow-origin]
    being the request's origin and [vary] being [Origin].  (The handler
    returns none only for a POST whose body the validator throws on.) *)
Theorem origin_gating request env w st :
  pathname request = str "/contact" ->
  method request = str "OPTIONS" \/ method request = str "POST" ->
  let o := fetch request env w st in
  (~ listed (Origin request) env ->
     exists r, response o = Some r
               /\ status r = 403 /\ headers r = plain_headers
               /\ body r = Some (error_body (str "Origin not allowed.")))
  /\ (forall origin, Origin request = Some origin -> origin ∈ getAllowedOrigins env ->
       (forall r, response o = Some r ->
          header (str "access-control-allow-origin") (headers r) = Some origin
          /\ header (str "vary") (headers r) = Some (str "Origin")
          /\ exists before, headers r = before ++ cors (Some origin))
       /\ (response o = None ->
           method request = str "POST"
           /\ exists body, request_json request = Some body /\ validateBody body = None)).
Proof.
  intros Hpath Hmethod. cbn zeta. split.
  - intros Hno%allowedOrigin_not_listed.
    destruct Hmethod as [Hm|Hm]; [rewrite fetch_options by done|rewrite fetch_post by done];
      rewrite Hno; eexists; (split; [reflexivity|done]).
  - intros origin Ho Hin.
    assert (Hyes : allowedOrigin (Origin request) env = true).
    { apply allowedOrigin_listed. by exists origin. }
    destruct Hmethod as [Hm|Hm].
    + rewrite fetch_options by done. rewrite Hyes, Ho. split; [|discriminate].
      intros r [= <-]. split; [reflexivity|]. split; [reflexivity|]. by exists [].
    + rewrite fetch_post by done. rewrite Hyes, Ho. cbn [negb].
      assert (Hall : forall data code,
                 (forall r, Some (json data code (cors (Some origin))) = Some r ->
                    header (str "access-control-allow-origin") (headers r) = Some origin
                    /\ header (str "vary") (headers r) = Some (str "Origin")
                    /\ exists before, headers r = before ++ cors (Some origin))
                 /\ (Some (json data code (cors (Some origin))) = None ->
                     method request = str "POST"
                     /\ exists body, request_json request = Some body
                                     /\ validateBody body = None)).
      { intros data code. split; [|discriminate]. intros r [= <-].
        rewrite headers_json_cors.
        split; [reflexivity|]. split; [reflexivity|]. by exists plain_headers. }
      destruct (rateLimited _ _ _) as [[] buckets]; [apply Hall|].
      destruct (request_json request) as [body|] eqn:Hb; [|apply Hall].
      destruct (validateBody body) as [[error|payload]|] eqn:Hv; [apply Hall| |].
      * unfold from_lookup.
        destruct (getIdempotent _ _ _) as [[existing|] store]; [apply Hall|].
        destruct (upstream w) as [code|]; [|apply Hall].
        destruct (negb (ok code)); apply Hall.
      * cbn [response]. split; [discriminate|]. intros _. split; [done|]. by exists body.
Qed.

Lemma origin_gating_witness :
  let r := json (error_body (str "Invalid JSON.")) 400
             (cors (Some (str "https://site.example"))) in
  response (fetch (request_of "POST" (Some (str "https://site.example")) None)
              site_env (calm 1000 Throws) initial) = Some r
  /\ header (str "access-control-allow-origin") (headers r) = Some (str "https://site.example")
  /\ header (str "vary") (headers r) = Some (str "Origin")
  /\ exists before, headers r = before ++ cors (Some (str "https://site.example")).
Proof.
  cbn zeta. split; [reflexivity|].
  apply (origin_gating (request_of "POST" (Some (str "https://site.example")) None)
           site_env (calm 1000 Throws) initial);
    [reflexivity|right; reflexivity|reflexivity| |reflexivity].
  apply (bool_decide_eq_true_1 (str "https://site.example" ∈ getAllowedOrigins site_env)).
  reflexivity.
Defined.

(** C7 (as stated) fails for the other methods, which are answered 405 before
    the origin is looked at: a GET from an origin that is not allowed is not
    answered 403, and a GET from the allowed origin gets no CORS header. *)
Lemma origin_gating_not_every_method :
  let evil := fetch (request_of "GET" (Some (str "https://evil.example")) None)
                site_env (calm 1000 Throws) initial in
  let good := fetch (request_of "GET" (Some (str "https://site.example")) None)
                site_env (calm 1000 Throws) initial in
  let answer := json (error_body (str "Method not allowed.")) 405 [] in
  allowedOrigin (Some (str "https://evil.example")) site_env = false
  /\ response evil = Some answer
  /\ allowedOrigin (Some (str "https://site.example")) site_env = true
  /\ response good = Some answer
  /\ status answer = 405
  /\ status answer <> 403
  /\ header (str "access-control-allow-origin") (headers answer) = None
  /\ header (str "vary") (headers answer) = None.
Proof. cbn zeta. repeat split; try reflexivity. discriminate. Qed.

Lemma from_lookup_rateBucket origin env w buckets store0 payload :
  rateBucket (final (from_lookup origin env w buckets store0 payload)) = buckets.
Proof.
  unfold from_lookup.
  destruct (getIdempotent _ _ _) as [[existing|] store]; [done|].
  destruct (upstream w) as [code|]; [|done]. by destruct (negb (ok code)).
Qed.

Lemma rateLimited_counted now clientKey rateBucket :
  fst (rateLimited now clientKey rateBucket) = false ->
  snd (rateLimited now clientKey rateBucket) !! clientKey
  = Some (counted now (rateBucket !! clientKey)).
Proof.
  unfold rateLimited, counted.
  destruct (rateBucket !! clientKey) as [b|]; [|intros _; apply lookup_insert_eq].
  destruct (now >? resetAt b); [intros _; apply lookup_insert_eq|].
  destruct (count b >=? RATE_MAX); [discriminate|intros _; apply lookup_insert_eq].
Qed.

(** C5 (as amended): the limiter runs before the body is read.  For every
    POST to [/contact] from an allowed origin, the [rateBucket] map the
    handler leaves is the one a single call of the limiter for the client
    gives, whatever the body and the upstream are; so when the limiter does
    not itself reject the request, the client's count advances exactly once
    (to one more, or to 1 in a new window), also when the request is then
    rejected with 400 for a body that does not parse or validate. *)
Theorem rate_slot_consumed request env w st :
  pathname request = str "/contact" ->
  method request = str "POST" ->
  allowedOrigin (Origin request) env = true ->
  let now := now_rateLimited w in
  let ip := client_key request in
  let o := fetch request env w st in
  rateBucket (final o) = snd (rateLimited now ip (rateBucket st))
  /\ (fst (rateLimited now ip (rateBucket st)) = false ->
      rateBucket (final o) !! ip = Some (counted now (rateBucket st !! ip))
      /\ (bad_body request ->
          status <$> response o = Some 400
          /\ rateBucket (final o) !! ip = Some (counted now (rateBucket st !! ip)))).
Proof.
  intros Hpath Hmethod Horigin. cbn zeta.
  rewrite fetch_post by done. rewrite Horigin. cbn [negb].
  pose proof (rateLimited_counted (now_rateLimited w) (client_key request) (rateBucket st))
    as Hcounted.
  destruct (rateLimited _ _ _) as [limited buckets]. cbn [fst snd] in *.
  assert (Hframe :
    rateBucket (final
      (if limited
       then {| response := Some (json (error_body (str "Rate limit exceeded.")) 429
                             (cors (Origin request)));
               final := {| rateBucket := buckets; idempotencyStore := idempotencyStore st |};
               effects := [] |}
       else match request_json request with
            | None =>
                {| response := Some (json (error_body (str "Invalid JSON.")) 400
                                 (cors (Origin request)));
                   final := {| rateBucket := buckets;
                               idempotencyStore := idempotencyStore st |};
                   effects := [] |}
            | Some body =>
                match validateBody body with
                | None =>
                    {| response := None;
                       final := {| rateBucket := buckets;
                                   idempotencyStore := idempotencyStore st |};
                       effects := [] |}
                | Some (Invalid error) =>
                    {| response := Some (json (error_body error) 400 (cors (Origin request)));
                       final := {| rateBucket := buckets;
                                   idempotencyStore := idempotencyStore st |};
                       effects := [] |}
                | Some (Valid payload) =>
                    from_lookup (Origin request) env w buckets (idempotencyStore st) payload
                end
            end)) = buckets).
  { destruct limited; [done|].
    destruct (request_json request) as [body|]; [|done].
    destruct (validateBody body) as [[error|payload]|]; [done| |done].
    apply from_lookup_rateBucket. }
  split; [exact Hframe|].
  intros ->. rewrite Hframe. split; [by apply Hcounted|].
  unfold bad_body. intros Hbad. split; [|by apply Hcounted].
  destruct (request_json request) as [body|]; [|done].
  destruct Hbad as [error ->]. done.
Qed.

Lemma rate_slot_consumed_witness :
  let request := request_of "POST" (Some (str "https://site.example"))
                   (Some (submission "r-1" "")) in
  let o := fetch request site_env (calm 1000 Throws) initial in
  status <$> response o = Some 400
  /\ rateBucket (final o) !! str "203.0.113.7" = Some {| count := 1; resetAt := 61000 |}.
Proof.
  apply (rate_slot_consumed
           (request_of "POST" (Some (str "https://site.example")) (Some (submission "r-1" "")))
           site_env (calm 1000 Throws) initial);
    [reflexivity|reflexivity|reflexivity|reflexivity|].
  unfold bad_body. cbn [request_json request_of].
  exists (str "Missing required fields."). reflexivity.
Defined.

(** C5 (as stated) fails for a POST the limiter rejects: the client's count
    is at the maximum within the window, the request is answered 429 and the
    count stays where it was. *)
Lemma rate_slot_not_consumed_when_limited :
  let request := request_of "POST" (Some (str "https://site.example"))
                   (Some (submission "r-1" "a@b.co")) in
  let o := fetch request site_env (calm 2000 (Responds 200)) spent in
  pathname request = str "/contact" /\ method request = str "POST"
  /\ allowedOrigin (Origin request) site_env = true
  /\ rateBucket spent !! client_key request = Some {| count := 5; resetAt := 61000 |}
  /\ status <$> response o = Some 429
  /\ rateBucket (final o) !! client_key request = Some {| count := 5; resetAt := 61000 |}
  /\ rateBucket (final o) = rateBucket spent.
Proof. cbn zeta. repeat split; reflexivity. Qed.

Lemma ok_failed code : code < 200 \/ 299 < code -> ok code = false.
Proof. unfold ok. intros [H|H]; lia. Qed.

(** The handler makes the outbound call only from the dispatch stage: after
    every check and an idempotency lookup that finds nothing. *)
Lemma fetch_dispatched request env w st e :
  e ∈ posts (effects (fetch request env w st)) ->
  exists payload,
    e = upstream_post env payload
    /\ reaches_lookup request env w st payload
    /\ fst (getIdempotent (now_getIdempotent w) (requestId payload) (idempotencyStore st))
       = None.
Proof.
  unfold fetch.
  destruct (bool_decide (pathname request = str "/contact")) eqn:Hpath; cbn [negb];
    [|by intros ?%elem_of_nil].
  destruct (bool_decide (method request = str "OPTIONS")) eqn:Hopt.
  { destruct (negb (allowedOrigin _ _)); by intros ?%elem_of_nil. }
  destruct (bool_decide (method request = str "POST")) eqn:Hpost; cbn [negb];
    [|by intros ?%elem_of_nil].
  destruct (allowedOrigin (Origin request) env) eqn:Horigin; cbn [negb];
    [|by intros ?%elem_of_nil].
  destruct (rateLimited _ _ _) as [limited buckets] eqn:Hlimit.
  destruct limited; [by intros ?%elem_of_nil|].
  destruct (request_json request) as [body|] eqn:Hbody; [|by intros ?%elem_of_nil].
  destruct (validateBody body) as [[error|payload]|] eqn:Hvalid;
    [by intros ?%elem_of_nil| |by intros ?%elem_of_nil].
  cbn [idempotencyStore].
  destruct (getIdempotent _ _ _) as [[existing|] store] eqn:Hget;
    [by intros ?%elem_of_nil|].
  intros He. exists payload.
  assert (e = upstream_post env payload) as ->.
  { destruct (upstream w) as [code|]; [destruct (negb (ok code))|];
      cbn in He; by apply list_elem_of_singleton in He. }
  split; [done|]. split; [|by rewrite Hget].
  apply bool_decide_eq_true in Hpath, Hpost.
  unfold reaches_lookup. rewrite Hlimit. eauto 10.
Qed.

Lemma getIdempotent_None now rid store :
  fst (getIdempotent now rid store) = None ->
  snd (getIdempotent now rid store) = delete rid store.
Proof.
  unfold getIdempotent. destruct (store !! rid) as [r|] eqn:Hr.
  - by destruct (now >? expiresAt r).
  - intros _. symmetry. by apply delete_id.
Qed.

(** C4: whenever the handler reaches the dispatch stage (it makes the
    outbound call, for [payload]) and the upstream answers with a status
    outside 200..299 or the call throws, the response is 502 with
    [retryable: true] in its body, and the idempotency store is not written:
    it holds no record for the request id, and is the store as it was but for
    an expired record of that id, which the lookup removed. *)
Theorem upstream_failure request env w st payload :
  upstream_post env payload ∈ posts (effects (fetch request env w st)) ->
  upstream_failed w ->
  let o := fetch request env w st in
  status <$> response o = Some 502
  /\ (exists data, response o ≫= body = Some data
                  /\ get data (str "retryable") = Some (VBool true))
  /\ idempotencyStore (final o) !! requestId payload = None
  /\ idempotencyStore (final o) = delete (requestId payload) (idempotencyStore st).
Proof.
  intros Hpost Hfail. cbn zeta.
  apply fetch_dispatched in Hpost as (payload' & Heq & Hreach & Hget).
  assert (payload' = payload) as -> by (unfold upstream_post in Heq; congruence).
  rewrite (fetch_lookup _ _ _ _ _ Hreach). unfold from_lookup.
  pose proof (getIdempotent_None _ _ _ Hget) as Hstore.
  destruct (getIdempotent _ _ _) as [existing store]. cbn [fst snd] in *. subst existing store.
  unfold upstream_failed in Hfail.
  assert (Hgone : delete (requestId payload) (idempotencyStore st) !! requestId payload = None)
    by apply lookup_delete_eq.
  destruct (upstream w) as [code|].
  - rewrite (ok_failed code Hfail). cbn [negb response final idempotencyStore].
    split; [done|]. split; [|done]. eexists. split; [reflexivity|reflexivity].
  - cbn [response final idempotencyStore].
    split; [done|]. split; [|done]. eexists. split; [reflexivity|reflexivity].
Qed.

Lemma upstream_failure_witness :
  let request := request_of "POST" (Some (str "https://site.example"))
                   (Some (submission "r-1" "a@b.co")) in
  let o := fetch request site_env (calm 1000 (Responds 500)) initial in
  status <$> response o = Some 502
  /\ (exists data, response o ≫= body = Some data
                  /\ get data (str "retryable") = Some (VBool true))
  /\ idempotencyStore (final o) !! requestId (submitted "r-1" "a@b.co") = None
  /\ idempotencyStore (final o)
     = delete (requestId (submitted "r-1" "a@b.co")) (idempotencyStore initial).
Proof.
  apply (upstream_failure
           (request_of "POST" (Some (str "https://site.example"))
              (Some (submission "r-1" "a@b.co")))
           site_env (calm 1000 (Responds 500)) initial
           (submitted "r-1" "a@b.co")).
  - apply list_elem_of_here.
  - unfold upstream_failed. cbn [upstream calm]. right. lia.
Defined.

(** A transport exception is answered like an upstream error. *)
Example upstream_throws :
  let request := request_of "POST" (Some (str "https://site.example"))
                   (Some (submission "r-1" "a@b.co")) in
  let o := fetch request site_env (calm 1000 Throws) initial in
  status <$> response o = Some 502
  /\ response o ≫= body = Some (retryable_body (str "Upstream transport failed."))
  /\ idempotencyStore (final o) = ∅.
Proof. cbn zeta. repeat split; reflexivity. Qed.

(** The handler answers "accepted" only after storing the record. *)
Lemma fetch_accepted request env w st rid :
  response (fetch request env w st) ≫= body = Some (ok_body (str "accepted") rid) ->
  idempotencyStore (final (fetch request env w st)) !! rid
  = Some {| record_status := str "accepted";
            expiresAt := now_setIdempotent w + 600000 |}.
Proof.
  assert (Herr : forall error, Some (error_body error) <> Some (ok_body (str "accepted") rid))
    by (intros error; discriminate).
  assert (Hretry : forall error,
             Some (retryable_body error) <> Some (ok_body (str "accepted") rid))
    by (intros error; discriminate).
  unfold fetch.
  destruct (negb (bool_decide (pathname request = str "/contact")));
    [by intros ?%Herr|].
  destruct (bool_decide (method request = str "OPTIONS")).
  { destruct (negb (allowedOrigin _ _)); [by intros ?%Herr|discriminate]. }
  destruct (negb (bool_decide (method request = str "POST"))); [by intros ?%Herr|].
  destruct (negb (allowedOrigin (Origin request) env)); [by intros ?%Herr|].
  destruct (rateLimited _ _ _) as [limited buckets].
  destruct limited; [by intros ?%Herr|].
  destruct (request_json request) as [body|]; [|by intros ?%Herr].
  destruct (validateBody body) as [[error|payload]|]; [by intros ?%Herr| |discriminate].
  destruct (getIdempotent _ _ _) as [[existing|] store].
  { cbn. intros H. exfalso. injection H as H _. by vm_compute in H. }
  destruct (upstream w) as [code|]; [|by intros ?%Hretry].
  destruct (negb (ok code)); [by intros ?%Hretry|].
  cbn. intros H. injection H as <-. unfold setIdempotent. cbn.
  apply lookup_insert_eq.
Qed.

Lemma getIdempotent_fresh now rid store r :
  store !! rid = Some r -> now <= expiresAt r ->
  getIdempotent now rid store = (Some r, store).
Proof.
  unfold getIdempotent. intros -> Hnow.
  destruct (Z.gtb_spec now (expiresAt r)); [lia|done].
Qed.

Lemma getIdempotent_expired now rid store r :
  store !! rid = Some r -> now > expiresAt r ->
  getIdempotent now rid store = (None, delete rid store).
Proof.
  unfold getIdempotent. intros -> Hnow.
  destruct (Z.gtb_spec now (expiresAt r)); [done|lia].
Qed.

(** A submission whose id has a record that has not expired is answered as a
    duplicate, without any outbound call and without touching the store. *)
Lemma from_lookup_duplicate origin env w buckets store payload r :
  store !! requestId payload = Some r ->
  now_getIdempotent w <= expiresAt r ->
  from_lookup origin env w buckets store payload
  = {| response := Some (json (ok_body (str "duplicate") (requestId payload)) 200 (cors origin));
       final := {| rateBucket := buckets; idempotencyStore := store |};
       effects := [submit_log (requestId payload) (str "duplicate")] |}.
Proof.
  intros Hr Hnow. unfold from_lookup.
  by rewrite (getIdempotent_fresh _ _ _ r Hr Hnow).
Qed.

(** A submission whose id has an expired record is dispatched. *)
Lemma from_lookup_expired origin env w buckets store payload r :
  store !! requestId payload = Some r ->
  now_getIdempotent w > expiresAt r ->
  posts (effects (from_lookup origin env w buckets store payload))
  = [upstream_post env payload].
Proof.
  intros Hr Hnow. unfold from_lookup.
  rewrite (getIdempotent_expired _ _ _ r Hr Hnow).
  destruct (upstream w) as [code|]; [|done]. by destruct (negb (ok code)).
Qed.

(** C6: the validator does not settle every body.  A submission whose name is
    the object [{"toString": 1}] is a body [request.json()] can return; on it
    [String()] throws in [sanitizeText], so [validateBody] returns neither a
    reason nor a payload.  The handler calls the validator outside any [try]:
    the run returns no response, after the limiter has counted the request.
    A body that does not parse, which the [try] around [request.json()]
    covers, is answered 400. *)
Theorem validateBody_throws :
  let origin := Some (str "https://site.example") in
  let o := fetch (request_of "POST" origin (Some hostile_submission)) site_env
             (calm 1000 (Responds 200)) initial in
  let unparsed := fetch (request_of "POST" origin None) site_env
                    (calm 1000 (Responds 200)) initial in
  is_object hostile_submission = true
  /\ get hostile_submission (str "name") = Some (VObject [(str "toString", VNumber (str "1"))])
  /\ toString (VObject [(str "toString", VNumber (str "1"))]) = None
  /\ sanitizeText (get hostile_submission (str "name")) 120 = None
  /\ validateBody hostile_submission = None
  /\ response o = None
  /\ effects o = []
  /\ rateBucket (final o) !! str "203.0.113.7" = Some {| count := 1; resetAt := 1000 + 60000 |}
  /\ response unparsed = Some (json (error_body (str "Invalid JSON.")) 400 (cors origin)).
Proof. repeat split; reflexivity. Qed.

(** C9: the credential never reaches the client.  With the request, the
    state and the surroundings (the upstream's behaviour among them) fixed,
    running the handler with any two values of [CONTACT_API_KEY] gives the
    same response, the same state and the same log lines; the runs differ
    only in the [authorization] header of the outbound POST, which is
    ["Bearer "] followed by the credential. *)
Theorem credential_not_exposed request env w st key1 key2 :
  let o1 := fetch request (with_key key1 env) w st in
  let o2 := fetch request (with_key key2 env) w st in
  response o1 = response o2
  /\ final o1 = final o2
  /\ List.map redact (effects o1) = List.map redact (effects o2)
  /\ (forall url post_headers post_body,
        Post url post_headers post_body ∈ effects o1 ->
        header (str "authorization") post_headers = Some (str "Bearer " ++ key1)).
Proof.
  cbn zeta. unfold fetch.
  change (allowedOrigin (Origin request) (with_key key1 env))
    with (allowedOrigin (Origin request) env).
  change (allowedOrigin (Origin request) (with_key key2 env))
    with (allowedOrigin (Origin request) env).
  assert (Hnil : forall url post_headers post_body,
             Post url post_headers post_body ∈ @nil Effect ->
             header (str "authorization") post_headers = Some (str "Bearer " ++ key1))
    by (intros ? ? ? ?%elem_of_nil; done).
  assert (Hlog : forall a b c url post_headers post_body,
             Post url post_headers post_body ∈ [Log a b c] ->
             header (str "authorization") post_headers = Some (str "Bearer " ++ key1)).
  { intros a b c url hs p H%list_elem_of_singleton. discriminate. }
  assert (Hpost : forall payload a b c url post_headers post_body,
             Post url post_headers post_body
               ∈ [upstream_post (with_key key1 env) payload; Log a b c] ->
             header (str "authorization") post_headers = Some (str "Bearer " ++ key1)).
  { intros payload a b c url hs p H.
    apply elem_of_cons in H as [H|H%list_elem_of_singleton]; [|discriminate].
    unfold upstream_post in H. injection H as _ -> _. reflexivity. }
  destruct (negb (bool_decide (pathname request = str "/contact"))); [by repeat split|].
  destruct (bool_decide (method request = str "OPTIONS")).
  { destruct (negb (allowedOrigin _ _)); by repeat split. }
  destruct (negb (bool_decide (method request = str "POST"))); [by repeat split|].
  destruct (negb (allowedOrigin (Origin request) env)); [by repeat split|].
  destruct (rateLimited _ _ _) as [limited buckets].
  destruct limited; [by repeat split|].
  destruct (request_json request) as [body|]; [|by repeat split].
  destruct (validateBody body) as [[error|payload]|]; [by repeat split| |by repeat split].
  destruct (getIdempotent _ _ _) as [[existing|] store].
  { repeat split. apply Hlog. }
  destruct (upstream w) as [code|]; [destruct (negb (ok code))|];
    (repeat split; [apply Hpost]).
Qed.

End Handler.

(** * Further properties of the worker *)

(** ** Sanitizer: bounds, shape and fixed points *)

Section SanitizerShape.

Lemma trimStart_length s : (length (trimStart s) <= length s)%nat.
Proof.
  destruct (trimStart_suffix s) as [w Hw]. rewrite Hw at 2. rewrite length_app. lia.
Qed.

Lemma replace_ws_runs_length b s : (length (replace_ws_runs b s) <= length s)%nat.
Proof.
  revert b; induction s as [|c r IH]; intros b; simpl; [done|].
  pose proof (IH true). pose proof (IH false).
  destruct (is_ws c); [destruct b|]; simpl; lia.
Qed.

Lemma slice0_length s n : (length (slice0 s n) <= length s)%nat.
Proof. unfold slice0. rewrite length_take. lia. Qed.

Lemma trim_length s : (length (trim s) <= length s)%nat.
Proof.
  unfold trim. pose proof (trimEnd_length (trimStart s)). pose proof (trimStart_length s). lia.
Qed.

Lemma sanitize_string_length s n :
  (length (trim_replace_slice s n) <= length (trim s))%nat.
Proof.
  unfold trim_replace_slice.
  pose proof (slice0_length (replace_ws_runs false (trim s)) n).
  pose proof (replace_ws_runs_length false (trim s)). lia.
Qed.

(** Whenever the sanitizer returns a text, for a bound [max >= 0], the text
    has at most [max] code units; and sanitizing a string never makes it
    longer. *)
Theorem sanitizeText_bounded v n s :
  0 <= n ->
  sanitizeText v n = Some s ->
  Z.of_nat (length s) <= n
  /\ (forall x, v = Some (VString x) -> (length s <= length x)%nat).
Proof.
  intros Hn Hs. split; [by apply (sanitizeText_length v)|].
  intros x ->. rewrite sanitizeText_string in Hs. injection Hs as <-.
  pose proof (sanitize_string_length x n). pose proof (trim_length x). lia.
Qed.

Lemma sanitizeText_bounded_witness :
  Z.of_nat (length (str "a b")) <= 3
  /\ (forall x, Some (VString (str "  a   b  ")) = Some (VString x) ->
       (length (str "a b") <= length x)%nat).
Proof.
  apply (sanitizeText_bounded (Some (VString (str "  a   b  "))) 3 (str "a b"));
    [lia|reflexivity].
Defined.

Lemma collapsed_lookup b s i c :
  collapsed b s = true -> s !! i = Some c -> is_ws c = true ->
  c = 32%N
  /\ match i with
     | O => b = false
     | S j => exists p, s !! j = Some p /\ is_ws p = false
     end.
Proof.
  revert b i; induction s as [|d r IH]; intros b i Hs Hi Hc; [done|].
  simpl in Hs. destruct i as [|i]; simpl in Hi.
  - injection Hi as ->. rewrite Hc in Hs.
    apply andb_prop in Hs as [[Hb Hd]%andb_prop _].
    apply N.eqb_eq in Hd. by destruct b.
  - destruct (is_ws d) eqn:Hd.
    + apply andb_prop in Hs as [_ Hr].
      destruct (IH true i Hr Hi Hc) as [-> Hprev]. split; [done|].
      destruct i as [|j]; [done|]. exact Hprev.
    + destruct (IH false i Hs Hi Hc) as [-> Hprev]. split; [done|].
      destruct i as [|j]; [|exact Hprev].
      exists d. by split.
Qed.

(** Whatever the value and the bound, every white-space code unit of the
    text the sanitizer returns is a plain space that follows a code unit that
    is not white space: no tab or line break, no two spaces in a row, no
    space in front. *)
Theorem sanitizeText_shape v n s i c :
  sanitizeText v n = Some s ->
  s !! i = Some c ->
  is_ws c = true ->
  c = 32%N
  /\ exists j p, i = S j /\ s !! j = Some p /\ is_ws p = false.
Proof.
  intros Hs Hi Hc.
  destruct (collapsed_lookup true _ i c (sanitizeText_collapsed v n s Hs) Hi Hc) as [-> Hprev].
  split; [done|]. destruct i as [|j]; [done|].
  destruct Hprev as (p & Hp & Hws). eauto.
Qed.

Lemma sanitizeText_shape_witness :
  32%N = 32%N
  /\ exists j p, 1%nat = S j /\ str "a b" !! j = Some p /\ is_ws p = false.
Proof.
  apply (sanitizeText_shape (Some (VString (str "a    b"))) 10 (str "a b") 1 32%N);
    reflexivity.
Defined.

Lemma ends_ws_trimEnd s : ends_ws s = true -> (length (trimEnd s) < length s)%nat.
Proof.
  unfold ends_ws, trimEnd. rewrite length_rev, <- (length_rev s).
  destruct (rev s) as [|c r]; [done|]. simpl. intros ->.
  pose proof (trimStart_length r). lia.
Qed.

Lemma trimStart_keeps_end s :
  ends_ws s = true -> ends_ws (trimStart s) = true \/ trimStart s = [].
Proof.
  intros H. destruct (trimStart_suffix s) as [w Hw].
  destruct (trimStart s) as [|c r]; [by right|]. left.
  unfold ends_ws in *. rewrite Hw, rev_app_distr in H.
  destruct (rev (c :: r)) as [|e t] eqn:He; [|exact H].
  apply (f_equal (@length N)) in He. rewrite length_rev in He. discriminate.
Qed.

Lemma trim_shorter s : ends_ws s = true -> (length (trim s) < length s)%nat.
Proof.
  intros H. unfold trim. pose proof (trimStart_length s).
  destruct (trimStart_keeps_end s H) as [He|He].
  - pose proof (ends_ws_trimEnd _ He). lia.
  - rewrite He. cbn. destruct s; [done|]. simpl. lia.
Qed.

(** The strings the sanitizer leaves as they are, for a bound [n >= 0], are
    exactly those of at most [n] code units that are collapsed (see
    [collapsed]) and have no white space in front or at the end. *)
Theorem sanitizeText_fixed_point s n :
  0 <= n ->
  sanitizeText (Some (VString s)) n = Some s
  <-> collapsed true s = true /\ ends_ws s = false /\ Z.of_nat (length s) <= n.
Proof.
  intros Hn. rewrite sanitizeText_string. split.
  - intros [= Hfix]. split; [|split].
    + rewrite <- Hfix. apply trim_replace_slice_collapsed.
    + destruct (ends_ws s) eqn:He; [|done].
      pose proof (trim_shorter s He). pose proof (sanitize_string_length s n).
      rewrite Hfix in *. lia.
    + rewrite <- Hfix at 1. by apply trim_replace_slice_length.
  - intros (Hc & He & Hl). f_equal. unfold trim_replace_slice, trim.
    rewrite (trimStart_collapsed s Hc), (trimEnd_ends_ws s He).
    rewrite (replace_collapsed false) by by apply collapsed_weaken.
    rewrite slice0_take by done. apply take_ge. lia.
Qed.

Lemma sanitizeText_fixed_point_witness :
  sanitizeText (Some (VString (str "a b c"))) 5 = Some (str "a b c")
  <-> collapsed true (str "a b c") = true /\ ends_ws (str "a b c") = false
      /\ Z.of_nat (length (str "a b c")) <= 5.
Proof. apply (sanitizeText_fixed_point (str "a b c") 5). lia. Defined.

End SanitizerShape.

(** ** Validator: missing fields and the payloads it lets through *)

Section ValidatorShape.

Lemma blank_field_text v :
  blank_field v -> exists t, field_text v = Some t /\ forallb is_ws t = true.
Proof.
  intros [->|[->|(t & -> & Ht)]]; [by exists []|by exists []|by exists t].
Qed.

Lemma sanitize_spec_blank t n : forallb is_ws t = true -> sanitize_spec t n = [].
Proof. intros Ht. unfold sanitize_spec. rewrite words_blank by done. by destruct n. Qed.

Lemma sanitized_coercible body : is_Some (sanitized body) <-> coercible body.
Proof.
  unfold coercible, field_names, sanitized. rewrite !Forall_cons, Forall_nil.
  destruct (field_text (get body (str "requestId"))) as [t1|];
    [|split; [by intros []|by intros [[] _]]].
  destruct (field_text (get body (str "name"))) as [t2|];
    [|split; [by intros []|by intros (_ & [] & _)]].
  destruct (field_text (get body (str "email"))) as [t3|];
    [|split; [by intros []|by intros (_ & _ & [] & _)]].
  destruct (field_text (get body (str "subject"))) as [t4|];
    [|split; [by intros []|by intros (_ & _ & _ & [] & _)]].
  destruct (field_text (get body (str "message"))) as [t5|];
    [|split; [by intros []|by intros (_ & _ & _ & _ & [] & _)]].
  destruct (field_text (get body (str "timestamp"))) as [t6|];
    [|split; [by intros []|by intros (_ & _ & _ & _ & _ & [] & _)]].
  cbn [mbind option_bind]. split; [intros _; repeat split; by eexists|by eexists].
Qed.

(** A body that is an object (or an array) in which one of the six fields is
    absent, [null] or only white space is not accepted: it is rejected for
    missing fields exactly when all six fields can be coerced to text, and
    otherwise the validator throws, on the field that cannot. *)
Theorem validateBody_missing_field body field :
  is_object body = true ->
  field ∈ field_names ->
  blank_field (get body field) ->
  (validateBody body = Some (Invalid (str "Missing required fields.")) <-> coercible body)
  /\ (validateBody body = None <-> ~ coercible body).
Proof.
  intros Hobj Hfield (t & Ht & Hblank)%blank_field_text.
  rewrite <- sanitized_coercible.
  rewrite validateBody_unfold, Hobj. cbn [negb].
  destruct (sanitized body) as [p|] eqn:Hp.
  2: { split; (split; [|done]); [discriminate|by intros _ []]. }
  assert (Hempty : some_field_empty p).
  { unfold sanitized in Hp.
    destruct (field_text (get body (str "requestId"))) as [t1|] eqn:E1; [|done].
    destruct (field_text (get body (str "name"))) as [t2|] eqn:E2; [|done].
    destruct (field_text (get body (str "email"))) as [t3|] eqn:E3; [|done].
    destruct (field_text (get body (str "subject"))) as [t4|] eqn:E4; [|done].
    destruct (field_text (get body (str "message"))) as [t5|] eqn:E5; [|done].
    destruct (field_text (get body (str "timestamp"))) as [t6|] eqn:E6; [|done].
    cbn [mbind option_bind] in Hp. injection Hp as <-.
    unfold some_field_empty. cbn [requestId name email subject message timestamp].
    unfold field_names in Hfield.
    repeat (apply elem_of_cons in Hfield as [->|Hfield];
            [match goal with
             | E : field_text _ = Some ?u, H : field_text _ = Some t |- _ =>
                 rewrite H in E; injection E as <-
             end;
             rewrite (sanitize_spec_blank t) by done; tauto|]).
    by apply elem_of_nil in Hfield. }
  apply some_field_empty_iff in Hempty. rewrite Hempty.
  split; split; [by eexists|done|discriminate|].
  intros Hnot. destruct Hnot. by eexists.
Qed.

Lemma validateBody_missing_field_witness :
  let unnamed :=
    VObject [ (str "requestId", VString (str "r-1"));
              (str "name", VString (str "   "));
              (str "email", VObject [(str "toString", VNumber (str "1"))]) ] in
  validateBody (VArray [VString (str "a@b.co")])
  = Some (Invalid (str "Missing required fields."))
  /\ validateBody unnamed = None.
Proof.
  split.
  - apply (validateBody_missing_field (VArray [VString (str "a@b.co")]) (str "email")).
    + reflexivity.
    + unfold field_names. set_solver.
    + left. reflexivity.
    + repeat constructor; by eexists.
  - apply (validateBody_missing_field
             (VObject [ (str "requestId", VString (str "r-1"));
                        (str "name", VString (str "   "));
                        (str "email", VObject [(str "toString", VNumber (str "1"))]) ])
             (str "name")).
    + reflexivity.
    + unfold field_names. set_solver.
    + right. right. by exists (str "   ").
    + intros Hall. unfold coercible, field_names in Hall.
      apply Forall_cons in Hall as [_ Hall]. apply Forall_cons in Hall as [_ Hall].
      apply Forall_cons in Hall as [[text Htext] _]. discriminate Htext.
Defined.

Lemma plain_no_at s : Forall plain s -> count_occ N.eq_dec s 64%N = 0%nat.
Proof.
  induction 1 as [|c r [_ Hc] _ IH]; simpl; [done|].
  destruct (N.eq_dec c 64%N); [done|exact IH].
Qed.

Lemma plain_no_ws s : Forall plain s -> forallb (fun c => negb (is_ws c)) s = true.
Proof.
  induction 1 as [|c r [Hc _] _ IH]; simpl; [done|]. by rewrite Hc, IH.
Qed.

Lemma email_shape_facts s :
  email_shape s ->
  forallb (fun c => negb (is_ws c)) s = true
  /\ count_occ N.eq_dec s 64%N = 1%nat
  /\ (5 <= length s)%nat.
Proof.
  intros (a & b & c & -> & [Ha Hpa] & [Hb Hpb] & [Hc Hpc]). split; [|split].
  - rewrite !forallb_app, (plain_no_ws a), (plain_no_ws b), (plain_no_ws c) by done.
    reflexivity.
  - rewrite !count_occ_app, (plain_no_at a), (plain_no_at b), (plain_no_at c) by done.
    reflexivity.
  - rewrite !length_app. destruct a, b, c; try done. simpl. lia.
Qed.

Lemma validateBody_Valid body p :
  validateBody body = Some (Valid p) ->
  sanitizeText (get body (str "requestId")) 120 = Some (requestId p)
  /\ sanitizeText (get body (str "name")) 120 = Some (name p)
  /\ sanitizeText (get body (str "email")) 160 = Some (email p)
  /\ sanitizeText (get body (str "subject")) 180 = Some (subject p)
  /\ sanitizeText (get body (str "message")) 4000 = Some (message p)
  /\ sanitizeText (get body (str "timestamp")) 80 = Some (timestamp p)
  /\ some_field_empty_b p = false
  /\ test emailRegex (email p) = true.
Proof.
  unfold validateBody.
  destruct (negb (truthy body) || negb (typeof_object body)); [discriminate|].
  destruct (sanitizeText (get body (str "requestId")) 120) as [t1|]; [|discriminate].
  destruct (sanitizeText (get body (str "name")) 120) as [t2|]; [|discriminate].
  destruct (sanitizeText (get body (str "email")) 160) as [t3|]; [|discriminate].
  destruct (sanitizeText (get body (str "subject")) 180) as [t4|]; [|discriminate].
  destruct (sanitizeText (get body (str "message")) 4000) as [t5|]; [|discriminate].
  destruct (sanitizeText (get body (str "timestamp")) 80) as [t6|]; [|discriminate].
  cbn [mbind option_bind requestId name email subject message timestamp].
  destruct (_ || _) eqn:He; [discriminate|].
  destruct (test emailRegex t3) eqn:Hm; cbn [negb]; [|discriminate].
  intros [= <-]. cbn [requestId name email subject message timestamp].
  unfold some_field_empty_b. cbn [requestId name email subject message timestamp].
  by repeat split.
Qed.

(** A payload the validator lets through is the sanitized body: each of its
    six fields is non-empty, within its bound and collapsed, and its address
    has no white space, exactly one [@] and at least five code units. *)
Theorem validateBody_valid body p :
  validateBody body = Some (Valid p) ->
  sanitized body = Some p
  /\ Forall (fun fb => fst fb <> [] /\ Z.of_nat (length (fst fb)) <= snd fb
                      /\ collapsed true (fst fb) = true) (fields_with_bounds p)
  /\ forallb (fun c => negb (is_ws c)) (email p) = true
  /\ count_occ N.eq_dec (email p) 64%N = 1%nat
  /\ (5 <= length (email p))%nat.
Proof.
  intros Hv.
  pose proof (validateBody_Valid body p Hv) as (H1 & H2 & H3 & H4 & H5 & H6 & He & Hm).
  split.
  { rewrite validateBody_unfold in Hv.
    destruct (negb (is_object body)); [discriminate|].
    destruct (sanitized body) as [q|]; [|discriminate].
    destruct (some_field_empty_b q); [discriminate|].
    destruct (negb (test emailRegex (email q))); [discriminate|]. congruence. }
  apply emailRegex_shape, email_shape_facts in Hm. split; [|exact Hm].
  assert (Hne : ~ some_field_empty p).
  { rewrite <- some_field_empty_iff, He. discriminate. }
  unfold some_field_empty in Hne.
  unfold fields_with_bounds.
  repeat (apply Forall_cons; split;
          [cbn [fst snd]; split; [tauto|];
           split; [eapply sanitizeText_length; [|eassumption]; lia
                  |eapply sanitizeText_collapsed; eassumption]|]).
  apply Forall_nil. done.
Qed.

Lemma validateBody_valid_witness :
  sanitized (submission "r-1" "a@b.co") = Some (submitted "r-1" "a@b.co")
  /\ Forall (fun fb => fst fb <> [] /\ Z.of_nat (length (fst fb)) <= snd fb
                      /\ collapsed true (fst fb) = true)
       (fields_with_bounds (submitted "r-1" "a@b.co"))
  /\ forallb (fun c => negb (is_ws c)) (email (submitted "r-1" "a@b.co")) = true
  /\ count_occ N.eq_dec (email (submitted "r-1" "a@b.co")) 64%N = 1%nat
  /\ (5 <= length (email (submitted "r-1" "a@b.co")))%nat.
Proof.
  apply (validateBody_valid (submission "r-1" "a@b.co")). reflexivity.
Defined.

End ValidatorShape.

(** ** Origin guard: what the allow-list holds *)

Section AllowList.

Lemma split_nonempty sep s : split sep s <> [].
Proof.
  destruct s as [|c r]; simpl; [done|].
  destruct (c =? sep)%N; [done|]. by destruct (split sep r).
Qed.

Lemma split_no_sep sep s piece : piece ∈ split sep s -> sep ∉ piece.
Proof.
  revert piece; induction s as [|c r IH]; intros piece; simpl.
  - intros ->%list_elem_of_singleton. apply not_elem_of_nil.
  - destruct (N.eqb_spec c sep) as [->|Hne].
    + intros [->|H]%elem_of_cons; [apply not_elem_of_nil|by apply IH].
    + pose proof (split_nonempty sep r) as Hr.
      destruct (split sep r) as [|first rest]; [done|].
      intros [->|H]%elem_of_cons.
      * intros [Heq|Hin]%elem_of_cons; [congruence|].
        apply (IH first); [left|done].
      * apply IH. by right.
Qed.

Lemma trim_elem c s : c ∈ trim s -> c ∈ s.
Proof.
  unfold trim. intros H.
  destruct (trimStart_suffix s) as [w Hw].
  destruct (trimEnd_prefix (trimStart s)) as [w' Hw'].
  rewrite Hw, Hw'. set_solver.
Qed.

Lemma trimStart_id s :
  match s with c :: _ => is_ws c = false | [] => True end -> trimStart s = s.
Proof. destruct s as [|c r]; simpl; [done|]. by intros ->. Qed.

Lemma trim_trim s : trim (trim s) = trim s.
Proof.
  unfold trim at 1. rewrite (trimStart_id (trim s)) by apply trim_head.
  apply trimEnd_ends_ws. unfold trim. apply ends_ws_trimEnd_false.
Qed.

(** Every entry of the allow-list is a piece of the configured text between
    commas, trimmed: it is not empty, holds no comma and has no white space
    around it.  The origins [allowedOrigin] accepts are exactly the entries of
    the list: an [Origin] header is allowed exactly when it is present and
    equal to an entry.  So an allowed origin is such a text, and an [Origin]
    header that is absent, empty, holds a comma or has white space around it
    is never allowed. *)
Theorem getAllowedOrigins_entries env :
  (forall o, o ∈ getAllowedOrigins env -> exact_origin o)
  /\ (forall origin, allowedOrigin origin env = true
                     <-> exists o, origin = Some o /\ o ∈ getAllowedOrigins env)
  /\ (forall o, allowedOrigin (Some o) env = true -> exact_origin o)
  /\ allowedOrigin None env = false
  /\ (forall o, ~ exact_origin o -> allowedOrigin (Some o) env = false).
Proof.
  assert (Hexact : forall o, o ∈ getAllowedOrigins env -> exact_origin o).
  { intros o Ho. unfold getAllowedOrigins in Ho.
    apply list_elem_of_In, filter_In in Ho as [Hin Htruthy].
    apply in_map_iff in Hin as (piece & <- & Hpiece%list_elem_of_In).
    split; [by destruct (trim piece)|]. split; [|apply trim_trim].
    intros Hcomma%trim_elem. by apply (split_no_sep _ _ _ Hpiece). }
  assert (Hallowed : forall o, allowedOrigin (Some o) env = true -> exact_origin o).
  { intros o (o' & [= <-] & Ho)%allowedOrigin_listed. by apply Hexact. }
  split; [exact Hexact|]. split; [intros origin; apply allowedOrigin_listed|].
  split; [exact Hallowed|]. split; [reflexivity|].
  intros o Hnot. destruct (allowedOrigin (Some o) env) eqn:Ho; [|done].
  by destruct (Hnot (Hallowed o Ho)).
Qed.

Lemma getAllowedOrigins_entries_witness :
  exact_origin (str "https://site.example")
  /\ allowedOrigin (Some (str "https://site.example")) site_env = true
  /\ allowedOrigin (Some (str " https://site.example")) site_env = false
  /\ allowedOrigin (Some (str "https://site.example,")) site_env = false
  /\ allowedOrigin (Some (str "")) site_env = false.
Proof.
  destruct (getAllowedOrigins_entries site_env) as (Hexact & Hiff & _ & _ & Hnever).
  assert (Hin : str "https://site.example" ∈ getAllowedOrigins site_env).
  { apply (bool_decide_eq_true_1 (str "https://site.example" ∈ getAllowedOrigins site_env)).
    reflexivity. }
  split; [exact (Hexact _ Hin)|].
  split; [apply Hiff; by exists (str "https://site.example")|].
  split; [apply Hnever; intros (_ & _ & Htrim); discriminate Htrim|].
  split; [apply Hnever; intros (_ & Hcomma & _); apply Hcomma|
          apply Hnever; by intros [Hempty _]].
  apply (bool_decide_eq_true_1 (44%N ∈ str "https://site.example,")). reflexivity.
Defined.

Lemma split_app_sep sep x rest :
  sep ∉ x -> split sep (x ++ sep :: rest) = x :: split sep rest.
Proof.
  induction x as [|c x IH]; simpl; intros Hx.
  - by rewrite N.eqb_refl.
  - destruct (N.eqb_spec c sep) as [->|Hne]; [exfalso; apply Hx; left|].
    rewrite IH; [done|]. intros H. apply Hx. by right.
Qed.

Lemma split_no_sep_id sep x : sep ∉ x -> split sep x = [x].
Proof.
  induction x as [|c x IH]; simpl; intros Hx; [done|].
  destruct (N.eqb_spec c sep) as [->|Hne]; [exfalso; apply Hx; left|].
  rewrite IH; [done|]. intros H. apply Hx. by right.
Qed.

Lemma split_join l :
  l <> [] -> Forall (fun o => 44%N ∉ o) l -> split 44 (join (str ",") l) = l.
Proof.
  intros Hne Hl. induction Hl as [|x r Hx Hr IH]; [done|].
  destruct r as [|y r].
  - simpl. by apply split_no_sep_id.
  - change (join (str ",") (x :: y :: r)) with (x ++ 44%N :: join (str ",") (y :: r)).
    rewrite split_app_sep by done. by rewrite IH.
Qed.

Lemma join_nil_inv l :
  Forall exact_origin l -> join (str ",") l = [] -> l = [].
Proof.
  destruct l as [|x r]; [done|]. intros [[Hx _] _]%Forall_cons.
  destruct r; simpl; [done|]. by destruct x.
Qed.

(** Configuring the comma-joined text of a list of origins, each not empty,
    without a comma and without white space around it, gives back exactly
    that list, and the origins allowed are exactly its members. *)
Theorem getAllowedOrigins_join env l :
  Forall exact_origin l ->
  ALLOWED_ORIGINS env = Some (join (str ",") l) ->
  getAllowedOrigins env = l
  /\ (forall origin, allowedOrigin origin env = true <-> exists o, origin = Some o /\ o ∈ l).
Proof.
  intros Hl Henv.
  assert (Hget : getAllowedOrigins env = l).
  { unfold getAllowedOrigins. rewrite Henv.
    destruct (join (str ",") l) as [|c t] eqn:Hj.
    - apply join_nil_inv in Hj as ->; done.
    - cbn [truthy_str]. rewrite <- Hj. rewrite split_join.
      + clear Hj Henv. induction Hl as [|x r (Hx & _ & Ht) _ IH]; [done|].
        simpl. rewrite Ht, IH. by destruct x.
      + intros ->. discriminate.
      + eapply Forall_impl; [exact Hl|]. by intros o (_ & Ho & _). }
  split; [done|]. intros origin. rewrite allowedOrigin_listed. unfold listed. by rewrite Hget.
Qed.

Lemma getAllowedOrigins_join_witness :
  getAllowedOrigins
    {| CONTACT_API_ENDPOINT := str "https://api.example/messages";
       CONTACT_API_KEY := str "s3cret";
       ALLOWED_ORIGINS := Some (join (str ",") [str "https://a.example"; str "https://b.example"]) |}
  = [str "https://a.example"; str "https://b.example"]
  /\ (forall origin,
        allowedOrigin origin
          {| CONTACT_API_ENDPOINT := str "https://api.example/messages";
             CONTACT_API_KEY := str "s3cret";
             ALLOWED_ORIGINS :=
               Some (join (str ",") [str "https://a.example"; str "https://b.example"]) |} = true
        <-> exists o, origin = Some o
                      /\ o ∈ [str "https://a.example"; str "https://b.example"]).
Proof.
  apply (getAllowedOrigins_join
           {| CONTACT_API_ENDPOINT := str "https://api.example/messages";
              CONTACT_API_KEY := str "s3cret";
              ALLOWED_ORIGINS :=
                Some (join (str ",") [str "https://a.example"; str "https://b.example"]) |}
           [str "https://a.example"; str "https://b.example"]); [|reflexivity].
  repeat constructor; try discriminate; try reflexivity;
    apply (bool_decide_eq_true_1 (_ ∉ _)); reflexivity.
Defined.

End AllowList.

(** ** Rate limiter: footprint of a call and the budget of a window *)

Section RateBudget.

Implicit Types (rateBucket : gmap jsstring Bucket) (clientKey : jsstring) (now : Z).

(** A call touches no bucket but the caller's, removes none, and leaves the
    caller with a bucket whose window has not ended at the time of the call;
    a call that is limited changes nothing at all. *)
Theorem rateLimited_footprint now clientKey rateBucket :
  (forall other, other <> clientKey ->
     snd (rateLimited now clientKey rateBucket) !! other = rateBucket !! other)
  /\ (exists b, snd (rateLimited now clientKey rateBucket) !! clientKey = Some b
                /\ now <= resetAt b)
  /\ (fst (rateLimited now clientKey rateBucket) = true ->
      snd (rateLimited now clientKey rateBucket) = rateBucket).
Proof.
  split; [|split].
  - intros other Hne. unfold rateLimited.
    destruct (rateBucket !! clientKey) as [b|]; [|by apply lookup_insert_ne].
    destruct (now >? resetAt b); [by apply lookup_insert_ne|].
    destruct (count b >=? RATE_MAX); [done|by apply lookup_insert_ne].
  - unfold rateLimited. destruct (rateBucket !! clientKey) as [b|] eqn:Hb.
    + destruct (Z.gtb_spec now (resetAt b)).
      * eexists. split; [apply lookup_insert_eq|]. unfold RATE_WINDOW_MS. simpl. lia.
      * destruct (count b >=? RATE_MAX); cbn [snd].
        -- exists b. by split.
        -- eexists. split; [apply lookup_insert_eq|]. simpl. lia.
    + eexists. split; [apply lookup_insert_eq|]. unfold RATE_WINDOW_MS. simpl. lia.
  - unfold rateLimited. destruct (rateBucket !! clientKey) as [b|]; [|discriminate].
    destruct (now >? resetAt b); [discriminate|].
    by destruct (count b >=? RATE_MAX).
Qed.

Lemma rateLimited_each_in_window times clientKey rateBucket n reset :
  rateBucket !! clientKey = Some {| count := n; resetAt := reset |} ->
  0 <= n <= 5 ->
  Forall (fun t => t <= reset) times ->
  rateLimited_each times clientKey rateBucket
  = (replicate (Z.to_nat (5 - n) `min` length times) false
       ++ replicate (length times - Z.to_nat (5 - n)) true,
     <[clientKey := {| count := Z.min 5 (n + Z.of_nat (length times));
                       resetAt := reset |}]> rateBucket).
Proof.
  intros Hb Hn Htimes. revert rateBucket n Hb Hn.
  induction Htimes as [|t ts Ht _ IH]; intros rateBucket n Hb Hn.
  - simpl. rewrite Z.add_0_r, Z.min_r by lia.
    replace (Z.to_nat (5 - n) `min` 0)%nat with 0%nat by lia.
    by rewrite insert_id.
  - cbn [rateLimited_each length].
    destruct (Z.lt_ge_cases n 5) as [Hlt|Hge].
    + rewrite (rateLimited_count t clientKey rateBucket _ Hb) by done. cbn [count resetAt].
      rewrite (IH _ (n + 1)); [|apply lookup_insert_eq|lia].
      rewrite insert_insert_eq.
      replace (Z.to_nat (5 - n) `min` S (length ts))%nat
        with (S (Z.to_nat (5 - (n + 1)) `min` length ts)) by lia.
      replace (S (length ts) - Z.to_nat (5 - n))%nat
        with (length ts - Z.to_nat (5 - (n + 1)))%nat by lia.
      replace (n + 1 + Z.of_nat (length ts)) with (n + Z.of_nat (S (length ts))) by lia.
      reflexivity.
    + rewrite (rateLimited_full t clientKey rateBucket _ Hb) by done.
      rewrite (IH _ n Hb Hn).
      replace (Z.to_nat (5 - n)) with 0%nat by lia.
      rewrite !Z.min_l by lia. cbn [Nat.min replicate app].
      rewrite !Nat.sub_0_r. reflexivity.
Qed.

Lemma rateLimited_each_opened clientKey rateBucket t1 times :
  opens_window t1 clientKey rateBucket ->
  Forall (fun t => t <= t1 + 60000) times ->
  rateLimited_each (t1 :: times) clientKey rateBucket
  = (replicate (5 `min` S (length times)) false ++ replicate (S (length times) - 5) true,
     <[clientKey := {| count := Z.of_nat (5 `min` S (length times));
                       resetAt := t1 + 60000 |}]> rateBucket).
Proof.
  intros Hopen Htimes. cbn [rateLimited_each].
  rewrite rateLimited_open by done.
  rewrite (rateLimited_each_in_window times clientKey _ 1 (t1 + 60000));
    [|apply lookup_insert_eq|lia|done].
  rewrite insert_insert_eq. change (Z.to_nat (5 - 1)) with 4%nat.
  replace (5 `min` S (length times))%nat with (S (4 `min` length times)) by lia.
  replace (Z.min 5 (1 + Z.of_nat (length times)))
    with (Z.of_nat (S (4 `min` length times))) by lia.
  reflexivity.
Qed.

(** However many calls a client makes within one window, exactly the first
    five pass: of a call that opens a window at [t1] and any calls that
    follow it not after [t1 + 60000], the first five are not limited and all
    the others are, and the bucket ends with the count of the calls that
    passed and the reset time [t1 + 60000]. *)
Theorem rateLimited_window_budget clientKey rateBucket t1 times :
  opens_window t1 clientKey rateBucket ->
  Forall (fun t => t <= t1 + 60000) times ->
  let calls := S (length times) in
  rateLimited_each (t1 :: times) clientKey rateBucket
  = (replicate (5 `min` calls) false ++ replicate (calls - 5) true,
     <[clientKey := {| count := Z.of_nat (5 `min` calls); resetAt := t1 + 60000 |}]>
       rateBucket).
Proof. intros Hopen Htimes. cbn zeta. by apply rateLimited_each_opened. Qed.

Lemma rateLimited_window_budget_witness :
  let calls := S (length [1001; 1002; 1003; 1004; 1005; 61000; 61000]) in
  rateLimited_each (1000 :: [1001; 1002; 1003; 1004; 1005; 61000; 61000])
    (str "203.0.113.7") ∅
  = (replicate (5 `min` calls) false ++ replicate (calls - 5) true,
     <[str "203.0.113.7" := {| count := Z.of_nat (5 `min` calls); resetAt := 1000 + 60000 |}]>
       ∅).
Proof.
  apply (rateLimited_window_budget (str "203.0.113.7") ∅ 1000
           [1001; 1002; 1003; 1004; 1005; 61000; 61000]).
  - exact I.
  - repeat constructor; lia.
Defined.

End RateBudget.

(** ** Idempotency store: what a lookup returns and what it leaves *)

Section IdempotencyStore.

Implicit Types (store : gmap jsstring IdempotencyRecord) (requestId : jsstring).

(** Reading back what was just stored: a lookup at [later] of the id stored
    at [now] returns the record, with the data's status and the expiry
    [now + 600000], as long as [later <= now + 600000], and leaves the store
    as the write left it; a lookup after that returns nothing and removes the
    record, leaving the store as it was before the write but for that id. *)
Theorem getIdempotent_setIdempotent now later requestId data store :
  getIdempotent later requestId (setIdempotent now requestId data store)
  = if later >? now + 600000
    then (None, delete requestId store)
    else (Some {| record_status := data_status data; expiresAt := now + 600000 |},
          <[requestId := {| record_status := data_status data;
                            expiresAt := now + 600000 |}]> store).
Proof.
  unfold getIdempotent, setIdempotent, IDEMPOTENCY_TTL_MS.
  rewrite lookup_insert_eq. cbn [expiresAt]. change (10 * 60000) with 600000.
  destruct (later >? now + 600000); [|done].
  by rewrite delete_insert_eq.
Qed.

Lemma getIdempotent_facts now requestId store :
  (forall r, fst (getIdempotent now requestId store) = Some r
             <-> store !! requestId = Some r /\ now <= expiresAt r)
  /\ snd (getIdempotent now requestId store) ⊆ store
  /\ (forall other, other <> requestId ->
        snd (getIdempotent now requestId store) !! other = store !! other).
Proof.
  unfold getIdempotent. destruct (store !! requestId) as [existing|] eqn:Hr.
  - destruct (Z.gtb_spec now (expiresAt existing)); cbn [fst snd].
    + split; [|split].
      * intros r. split; [discriminate|]. intros [[= <-] ?]. lia.
      * apply delete_subseteq.
      * intros other Hne. by apply lookup_delete_ne.
    + split; [|split]; [|done|done].
      intros r. split; [by intros [= <-]|by intros [[= <-] _]].
  - cbn [fst snd]. split; [|split]; [|done|done].
    intros r. split; [discriminate|by intros [? _]].
Qed.

(** A lookup returns a record only if it is the one stored under the id and
    has not expired; it never adds or changes a record, and it leaves the
    records of the other ids alone. *)
Theorem getIdempotent_sound now requestId store :
  (forall r, fst (getIdempotent now requestId store) = Some r
             <-> store !! requestId = Some r /\ now <= expiresAt r)
  /\ snd (getIdempotent now requestId store) ⊆ store
  /\ (forall other, other <> requestId ->
        snd (getIdempotent now requestId store) !! other = store !! other).
Proof. apply getIdempotent_facts. Qed.

End IdempotencyStore.

(** ** Request handler: routing, effects and the shape of its answers *)

Section HandlerShape.

Implicit Types (request : Request) (env : Env) (w : Ambient) (st : State).

(** The four ways a run ends before the rate limiter is asked. *)
Lemma fetch_early request env w st :
  (pathname request <> str "/contact"
   /\ fetch request env w st
      = {| response := Some (json (error_body (str "Not found.")) 404 []); final := st; effects := [] |})
  \/ (pathname request = str "/contact" /\ method request = str "OPTIONS"
      /\ allowedOrigin (Origin request) env = true
      /\ fetch request env w st
         = {| response := Some {| body := None; status := 204; headers := cors (Origin request) |};
              final := st; effects := [] |})
  \/ (pathname request = str "/contact"
      /\ (method request = str "OPTIONS" \/ method request = str "POST")
      /\ allowedOrigin (Origin request) env = false
      /\ fetch request env w st
         = {| response := Some (json (error_body (str "Origin not allowed.")) 403 []);
              final := st; effects := [] |})
  \/ (pathname request = str "/contact"
      /\ method request <> str "OPTIONS" /\ method request <> str "POST"
      /\ fetch request env w st
         = {| response := Some (json (error_body (str "Method not allowed.")) 405 []);
              final := st; effects := [] |})
  \/ (pathname request = str "/contact" /\ method request = str "POST"
      /\ allowedOrigin (Origin request) env = true).
Proof.
  unfold fetch.
  destruct (decide (pathname request = str "/contact")) as [Hpath|Hpath].
  2: { left. by rewrite bool_decide_eq_false_2. }
  rewrite bool_decide_eq_true_2 by done. cbn [negb]. right.
  destruct (decide (method request = str "OPTIONS")) as [Hopt|Hopt].
  { rewrite bool_decide_eq_true_2 by done.
    destruct (allowedOrigin (Origin request) env) eqn:Ho; cbn [negb]; [left|right; left]; auto. }
  rewrite bool_decide_eq_false_2 by done. right.
  destruct (decide (method request = str "POST")) as [Hpost|Hpost].
  2: { rewrite bool_decide_eq_false_2 by done. cbn [negb]. right. left. auto. }
  rewrite bool_decide_eq_true_2 by done. cbn [negb].
  destruct (allowedOrigin (Origin request) env) eqn:Ho; cbn [negb]; [right; right|left]; auto.
Qed.

(** A POST from an allowed origin is answered 429, 400, 200 or 502, or the
    handler throws, which it does exactly when the limiter lets the request
    through, the body parses and the validator throws on it. *)
Lemma fetch_post_status request env w st :
  pathname request = str "/contact" -> method request = str "POST" ->
  allowedOrigin (Origin request) env = true ->
  let o := fetch request env w st in
  let thrown :=
    fst (rateLimited (now_rateLimited w) (client_key request) (rateBucket st)) = false
    /\ exists body, request_json request = Some body /\ validateBody body = None in
  (thrown /\ response o = None)
  \/ (~ thrown
      /\ exists r, response o = Some r
                   /\ (status r = 429 \/ status r = 400 \/ status r = 200 \/ status r = 502)).
Proof.
  intros Hpath Hmethod Ho. cbn zeta. rewrite fetch_post by done. rewrite Ho. cbn [negb].
  destruct (rateLimited _ _ _) as [[] buckets]; cbn [fst].
  { right. split; [by intros [? _]|]. eexists. split; [reflexivity|]. by left. }
  destruct (request_json request) as [body|].
  2: { right. split; [by intros (_ & ? & ? & _)|]. eexists. split; [reflexivity|].
       by right; left. }
  destruct (validateBody body) as [[error|payload]|] eqn:Hv.
  - right. split; [intros (_ & ? & [= <-] & ?); congruence|].
    eexists. split; [reflexivity|]. by right; left.
  - right. split; [intros (_ & ? & [= <-] & ?); congruence|].
    unfold from_lookup.
    destruct (getIdempotent _ _ _) as [[existing|] store];
      [eexists; split; [reflexivity|]; by right; right; left|].
    destruct (upstream w) as [code|];
      [|eexists; split; [reflexivity|]; by right; right; right].
    destruct (negb (ok code)); eexists; (split; [reflexivity|]);
      [by right; right; right|by right; right; left].
  - left. split; [|done]. split; [done|]. by exists body.
Qed.

(** Settles the routing of a run whose response is known. *)
Ltac settle_routing :=
  cbn [fmap option_fmap option_map response status json];
  repeat split;
  try (let r := fresh "r" in intros r [= <-]; cbn [status json]);
  intuition (try congruence; try lia).

(** How the handler routes: 404 exactly for a path other than [/contact];
    405 exactly for another method than OPTIONS and POST on [/contact]; 204
    exactly for an OPTIONS from an allowed origin; 403 exactly for an OPTIONS
    or POST from an origin that is not allowed.  It returns no response
    exactly for a POST from an allowed origin that the limiter lets through
    and on whose parsed body the validator throws; and a response it returns
    has no other status than 200, 204, 400, 403, 404, 405, 429 or 502. *)
Theorem fetch_routing request env w st :
  let o := fetch request env w st in
  let code := status <$> response o in
  (code = Some 404 <-> pathname request <> str "/contact")
  /\ (code = Some 405 <-> pathname request = str "/contact"
                          /\ method request <> str "OPTIONS" /\ method request <> str "POST")
  /\ (code = Some 204 <-> pathname request = str "/contact" /\ method request = str "OPTIONS"
                          /\ allowedOrigin (Origin request) env = true)
  /\ (code = Some 403 <-> pathname request = str "/contact"
                          /\ (method request = str "OPTIONS" \/ method request = str "POST")
                          /\ allowedOrigin (Origin request) env = false)
  /\ (response o = None
      <-> pathname request = str "/contact" /\ method request = str "POST"
          /\ allowedOrigin (Origin request) env = true
          /\ fst (rateLimited (now_rateLimited w) (client_key request) (rateBucket st)) = false
          /\ exists body, request_json request = Some body /\ validateBody body = None)
  /\ (forall r, response o = Some r ->
       status r = 200 \/ status r = 204 \/ status r = 400 \/ status r = 403
       \/ status r = 404 \/ status r = 405 \/ status r = 429 \/ status r = 502).
Proof.
  cbn zeta. pose proof not_OPTIONS as Hne.
  destruct (fetch_early request env w st)
    as [[Hpath ->]|[(Hpath & Hm & Ho & ->)|[(Hpath & Hm & Ho & ->)|[(Hpath & Hm1 & Hm2 & ->)
        |(Hpath & Hm & Ho)]]]].
  - settle_routing.
  - settle_routing.
  - destruct Hm as [Hm|Hm]; settle_routing.
  - settle_routing.
  - pose proof (fetch_post_status request env w st Hpath Hm Ho) as Hs. cbn zeta in Hs.
    rewrite Hm.
    destruct Hs as [[Hthrown ->]|[Hnot (r & -> & Hr)]];
      cbn [fmap option_fmap option_map response status json].
    + repeat split; try discriminate; intuition (try congruence).
    + repeat split; try (intros r' [= <-]); intuition (try congruence; try lia).
Qed.

(** A request answered 204, 403, 404 or 405 changes neither map and has no
    effect: nothing is counted, stored, logged or sent upstream for it. *)
Theorem fetch_turned_away request env w st :
  let o := fetch request env w st in
  status <$> response o = Some 204 \/ status <$> response o = Some 403
  \/ status <$> response o = Some 404 \/ status <$> response o = Some 405 ->
  final o = st /\ effects o = [].
Proof.
  cbn zeta.
  destruct (fetch_early request env w st)
    as [[Hpath ->]|[(Hpath & Hm & Ho & ->)|[(Hpath & Hm & Ho & ->)|[(Hpath & Hm1 & Hm2 & ->)
        |(Hpath & Hm & Ho)]]]]; try done.
  pose proof (fetch_post_status request env w st Hpath Hm Ho) as Hs. cbn zeta in Hs.
  destruct Hs as [[_ ->]|[_ (r & -> & Hr)]]; cbn; intros H;
    [intuition discriminate|].
  exfalso. destruct H as [H|[H|[H|H]]]; injection H as H; lia.
Qed.

Lemma fetch_turned_away_witness :
  final (fetch (request_of "DELETE" None None) site_env (calm 1000 Throws) spent) = spent
  /\ effects (fetch (request_of "DELETE" None None) site_env (calm 1000 Throws) spent) = [].
Proof.
  apply (fetch_turned_away (request_of "DELETE" None None) site_env (calm 1000 Throws) spent).
  right. right. right. reflexivity.
Defined.

(** A run either reaches the idempotency lookup with a validated payload, or
    leaves the store alone and has no effect. *)
Lemma fetch_cases request env w st :
  (exists payload, reaches_lookup request env w st payload)
  \/ (idempotencyStore (final (fetch request env w st)) = idempotencyStore st
      /\ effects (fetch request env w st) = []).
Proof.
  destruct (fetch_early request env w st)
    as [[Hpath ->]|[(Hpath & Hm & Ho & ->)|[(Hpath & Hm & Ho & ->)|[(Hpath & Hm1 & Hm2 & ->)
        |(Hpath & Hm & Ho)]]]]; try (by right).
  rewrite fetch_post by done. rewrite Ho. cbn [negb]. unfold reaches_lookup.
  destruct (rateLimited _ _ _) as [[] buckets] eqn:Hl; [by right|].
  destruct (request_json request) as [body|] eqn:Hb; [|by right].
  destruct (validateBody body) as [[error|payload]|] eqn:Hv; [by right| |by right].
  left. exists payload. eauto 10.
Qed.

Lemma getIdempotent_Some now rid store r :
  fst (getIdempotent now rid store) = Some r ->
  snd (getIdempotent now rid store) = store.
Proof.
  unfold getIdempotent. destruct (store !! rid) as [existing|]; [|done].
  by destruct (now >? expiresAt existing).
Qed.

(** What a run does to the idempotency store.  A record found after a run
    was there before, or is the one the run stored on answering "accepted",
    after the upstream confirmed.  A record gone after a run was the one of
    the submitted id, and had expired when the run looked it up. *)
Theorem fetch_store request env w st k r :
  let o := fetch request env w st in
  (idempotencyStore (final o) !! k = Some r ->
     idempotencyStore st !! k = Some r
     \/ (status <$> response o = Some 200
         /\ response o ≫= body = Some (ok_body (str "accepted") k)
         /\ r = {| record_status := str "accepted";
                   expiresAt := now_setIdempotent w + 600000 |}
         /\ exists code, upstream w = Responds code /\ ok code = true))
  /\ (idempotencyStore st !! k = Some r ->
      idempotencyStore (final o) !! k = None ->
      now_getIdempotent w > expiresAt r
      /\ exists payload, reaches_lookup request env w st payload /\ requestId payload = k).
Proof.
  cbn zeta.
  destruct (fetch_cases request env w st) as [[payload Hreach]|[-> _]].
  2: { split; [auto|]. intros H1 H2. congruence. }
  rewrite (fetch_lookup _ _ _ _ _ Hreach). unfold from_lookup.
  pose proof (getIdempotent_facts (now_getIdempotent w) (requestId payload)
                (idempotencyStore st)) as (Hsome & _ & _).
  pose proof (getIdempotent_None (now_getIdempotent w) (requestId payload)
                (idempotencyStore st)) as Hnone.
  pose proof (getIdempotent_Some (now_getIdempotent w) (requestId payload)
                (idempotencyStore st)) as Hsame.
  destruct (getIdempotent _ _ _) as [[existing|] store]; cbn [fst snd] in *.
  { rewrite (Hsame existing eq_refl).
    split; [auto|]. intros H1 H2. cbn in H2. congruence. }
  rewrite (Hnone eq_refl).
  assert (Hgone : forall r', idempotencyStore st !! k = Some r' ->
                    delete (requestId payload) (idempotencyStore st) !! k = None ->
                    now_getIdempotent w > expiresAt r'
                    /\ exists payload', reaches_lookup request env w st payload'
                                        /\ requestId payload' = k).
  { intros r' Hr' Hdel. apply lookup_delete_None in Hdel as [<-|Hdel]; [|congruence].
    split; [|by exists payload].
    destruct (Z.le_gt_cases (now_getIdempotent w) (expiresAt r')) as [Hle|Hgt]; [|lia].
    destruct (Hsome r') as [_ Hback]. by specialize (Hback (conj Hr' Hle)). }
  assert (Hkept : delete (requestId payload) (idempotencyStore st) !! k = Some r ->
                  idempotencyStore st !! k = Some r).
  { by intros [_ ?]%lookup_delete_Some. }
  destruct (upstream w) as [code|]; [destruct (ok code) eqn:Hok|]; cbn.
  - unfold setIdempotent. split.
    + intros [[<- <-]|[Hne Hdel]]%lookup_insert_Some; [|left; auto].
      right. repeat split; eauto.
    + intros Hr Hins. apply lookup_insert_None in Hins as [Hdel _]. eauto.
  - split; [auto|]. eauto.
  - split; [auto|]. eauto.
Qed.

(** A run sends at most one request upstream, and only for a body it has
    validated, from an allowed origin and past the rate limiter: the POST goes
    to the configured endpoint with the validated payload as its body, the
    payload's request id as [x-idempotency-key] and the credential in
    [authorization]. *)
Theorem fetch_posts request env w st :
  let o := fetch request env w st in
  (length (posts (effects o)) <= 1)%nat
  /\ (forall e, e ∈ posts (effects o) ->
       exists payload,
         reaches_lookup request env w st payload
         /\ e = Post (CONTACT_API_ENDPOINT env)
                  [ (str "content-type", str "application/json");
                    (str "authorization", str "Bearer " ++ CONTACT_API_KEY env);
                    (str "x-idempotency-key", requestId payload) ]
                  payload).
Proof.
  cbn zeta. split.
  - destruct (fetch_cases request env w st) as [[payload Hreach]|[_ ->]]; [|simpl; lia].
    rewrite (fetch_lookup _ _ _ _ _ Hreach). unfold from_lookup.
    destruct (getIdempotent _ _ _) as [[existing|] store]; [simpl; lia|].
    destruct (upstream w) as [code|]; [destruct (negb (ok code))|]; simpl; lia.
  - intros e (payload & -> & Hreach & _)%fetch_dispatched. by exists payload.
Qed.

(** The accepting run: a validated submission whose id has no record that
    counts, and that the upstream confirms with a status in 200..299, is
    answered 200 "accepted" with the CORS headers; the request went upstream
    once, one line was logged, and the store now holds, under the payload's
    id, a record "accepted" that expires 600000 ms after the write. *)
Theorem fetch_accepts request env w st payload code :
  reaches_lookup request env w st payload ->
  fst (getIdempotent (now_getIdempotent w) (requestId payload) (idempotencyStore st)) = None ->
  upstream w = Responds code -> 200 <= code <= 299 ->
  fetch request env w st
  = {| response := Some {| status := 200;
                     headers := plain_headers ++ cors (Origin request);
                     body := Some (ok_body (str "accepted") (requestId payload)) |};
       final := {| rateBucket := snd (rateLimited (now_rateLimited w) (client_key request)
                                        (rateBucket st));
                   idempotencyStore :=
                     <[requestId payload :=
                         {| record_status := str "accepted";
                            expiresAt := now_setIdempotent w + 600000 |}]>
                       (idempotencyStore st) |};
       effects := [upstream_post env payload;
                   submit_log (requestId payload) (str "accepted")] |}.
Proof.
  intros Hreach Hget Hup Hcode.
  rewrite (fetch_lookup _ _ _ _ _ Hreach). unfold from_lookup.
  pose proof (getIdempotent_None _ _ _ Hget) as Hstore.
  destruct (getIdempotent _ _ _) as [existing store]. cbn [fst snd] in *. subst existing store.
  rewrite Hup. assert (ok code = true) as -> by (unfold ok; lia). cbn [negb].
  unfold setIdempotent. cbn [data_status]. rewrite insert_delete_eq. reflexivity.
Qed.

Lemma fetch_accepts_witness :
  fetch (request_of "POST" (Some (str "https://site.example"))
           (Some (submission "r-1" "a@b.co")))
    site_env (calm 1000 (Responds 201)) initial
  = {| response := Some {| status := 200;
                     headers := plain_headers ++ cors (Some (str "https://site.example"));
                     body := Some (ok_body (str "accepted")
                                     (requestId (submitted "r-1" "a@b.co"))) |};
       final := {| rateBucket := snd (rateLimited 1000 (str "203.0.113.7") ∅);
                   idempotencyStore :=
                     <[requestId (submitted "r-1" "a@b.co") :=
                         {| record_status := str "accepted"; expiresAt := 1000 + 600000 |}]> ∅ |};
       effects := [upstream_post site_env (submitted "r-1" "a@b.co");
                   submit_log (requestId (submitted "r-1" "a@b.co"))
                     (str "accepted")] |}.
Proof.
  apply (fetch_accepts
           (request_of "POST" (Some (str "https://site.example"))
              (Some (submission "r-1" "a@b.co")))
           site_env (calm 1000 (Responds 201)) initial
           (submitted "r-1" "a@b.co") 201).
  - repeat split; try reflexivity.
    exists (submission "r-1" "a@b.co"). split; reflexivity.
  - reflexivity.
  - reflexivity.
  - lia.
Defined.

(** A failed submission can be retried: when a run went upstream for a
    payload and the upstream failed, the next run for a validated submission
    with the same request id goes upstream again, whenever it comes. *)
Theorem retry_after_failure env st request1 w1 payload1 request2 w2 payload2 :
  let o1 := fetch request1 env w1 st in
  let o2 := fetch request2 env w2 (final o1) in
  upstream_post env payload1 ∈ posts (effects o1) ->
  upstream_failed w1 ->
  reaches_lookup request2 env w2 (final o1) payload2 ->
  requestId payload2 = requestId payload1 ->
  posts (effects o2) = [upstream_post env payload2].
Proof.
  cbn zeta. intros Hpost Hfail Hreach2 Hid.
  apply fetch_dispatched in Hpost as (payload' & Heq & Hreach1 & Hget).
  assert (payload' = payload1) as -> by (unfold upstream_post in Heq; congruence).
  assert (Hgone : idempotencyStore (final (fetch request1 env w1 st)) !! requestId payload1
                  = None).
  { rewrite (fetch_lookup _ _ _ _ _ Hreach1). unfold from_lookup.
    pose proof (getIdempotent_None _ _ _ Hget) as Hstore.
    destruct (getIdempotent _ _ _) as [existing store]. cbn [fst snd] in *.
    subst existing store. unfold upstream_failed in Hfail.
    destruct (upstream w1) as [code|]; [rewrite (ok_failed code Hfail)|];
      cbn; apply lookup_delete_eq. }
  rewrite (fetch_lookup _ _ _ _ _ Hreach2). unfold from_lookup, getIdempotent.
  rewrite Hid, Hgone.
  destruct (upstream w2) as [code|]; [destruct (negb (ok code))|]; reflexivity.
Qed.

Lemma retry_after_failure_witness :
  let request := request_of "POST" (Some (str "https://site.example"))
                   (Some (submission "r-1" "a@b.co")) in
  let o1 := fetch request site_env (calm 1000 (Responds 503)) initial in
  let o2 := fetch request site_env (calm 1500 (Responds 200)) (final o1) in
  posts (effects o2) = [upstream_post site_env (submitted "r-1" "a@b.co")].
Proof.
  apply (retry_after_failure site_env initial
           (request_of "POST" (Some (str "https://site.example"))
              (Some (submission "r-1" "a@b.co")))
           (calm 1000 (Responds 503))
           (submitted "r-1" "a@b.co")
           (request_of "POST" (Some (str "https://site.example"))
              (Some (submission "r-1" "a@b.co")))
           (calm 1500 (Responds 200))
           (submitted "r-1" "a@b.co")).
  - apply list_elem_of_here.
  - unfold upstream_failed. cbn [upstream calm]. right. lia.
  - repeat split; try reflexivity.
    exists (submission "r-1" "a@b.co"). split; reflexivity.
  - reflexivity.
Defined.

(** The body of an answer.  A response the handler returns has no body when
    its status is 204; otherwise its body is a JSON object, typed as such by
    [content-type], that has [ok: true] and no [error] exactly when the status
    is 200, and an [error] text and no [ok] when it is 400 or more.  The
    handler returns no response only for a POST to [/contact] from an allowed
    origin that the limiter lets through and on whose parsed body the
    validator throws. *)
Theorem fetch_body request env w st :
  match response (fetch request env w st) with
  | None =>
      pathname request = str "/contact" /\ method request = str "POST"
      /\ allowedOrigin (Origin request) env = true
      /\ fst (rateLimited (now_rateLimited w) (client_key request) (rateBucket st)) = false
      /\ exists body, request_json request = Some body /\ validateBody body = None
  | Some r =>
      match body r with
      | None => status r = 204
      | Some data =>
          header (str "content-type") (headers r)
          = Some (str "application/json; charset=utf-8")
          /\ ((status r = 200 /\ get data (str "ok") = Some (VBool true)
               /\ get data (str "error") = None)
              \/ (400 <= status r /\ get data (str "ok") = None
                  /\ exists error, get data (str "error") = Some (VString error)))
      end
  end.
Proof.
  assert (Herr : forall error code extra,
             400 <= code ->
             extra = [] \/ extra = cors (Origin request) ->
             let r := json (error_body error) code extra in
             header (str "content-type") (headers r)
             = Some (str "application/json; charset=utf-8")
             /\ ((status r = 200 /\ get (error_body error) (str "ok") = Some (VBool true)
                  /\ get (error_body error) (str "error") = None)
                 \/ (400 <= status r /\ get (error_body error) (str "ok") = None
                     /\ exists e, get (error_body error) (str "error") = Some (VString e)))).
  { intros error code extra Hcode [->| ->]; (split; [reflexivity|]); right;
      (split; [exact Hcode|]); (split; [reflexivity|]); by exists error. }
  destruct (fetch_early request env w st)
    as [[Hpath ->]|[(Hpath & Hm & Ho & ->)|[(Hpath & Hm & Ho & ->)|[(Hpath & Hm1 & Hm2 & ->)
        |(Hpath & Hm & Ho)]]]]; cbn [response].
  - apply Herr; [lia|by left].
  - reflexivity.
  - apply Herr; [lia|by left].
  - apply Herr; [lia|by left].
  - rewrite fetch_post by done. rewrite Ho. cbn [negb].
    destruct (rateLimited _ _ _) as [[] buckets]; cbn [fst response];
      [apply Herr; [lia|by right]|].
    destruct (request_json request) as [b|]; cbn [response];
      [|apply Herr; [lia|by right]].
    destruct (validateBody b) as [[error|payload]|] eqn:Hv; cbn [response];
      [apply Herr; [lia|by right]| |by eauto 10].
    unfold from_lookup.
    destruct (getIdempotent _ _ _) as [[existing|] store]; cbn [response].
    { split; [reflexivity|]. left. by repeat split. }
    destruct (upstream w) as [code|]; [destruct (negb (ok code))|]; cbn [response].
    + split; [reflexivity|]. right. split; [simpl; lia|]. split; [reflexivity|]. by eexists.
    + split; [reflexivity|]. left. by repeat split.
    + split; [reflexivity|]. right. split; [simpl; lia|]. split; [reflexivity|]. by eexists.
Qed.

Lemma validateBody_requestId body payload :
  validateBody body = Some (Valid payload) ->
  requestId payload <> [] /\ Z.of_nat (length (requestId payload)) <= 120.
Proof.
  intros (Hid & _ & _ & _ & _ & _ & He & _)%validateBody_Valid.
  split; [|by apply (sanitizeText_length _ 120 _ ltac:(lia) Hid)].
  intros Hnil. assert (some_field_empty payload) as H%some_field_empty_iff by by left.
  congruence.
Qed.

Lemma fetch_well_kept request env w st :
  well_kept st -> well_kept (final (fetch request env w st)).
Proof.
  intros [Hrate Hstore].
  destruct (fetch_early request env w st)
    as [[Hpath ->]|[(Hpath & Hm & Ho & ->)|[(Hpath & Hm & Ho & ->)|[(Hpath & Hm1 & Hm2 & ->)
        |(Hpath & Hm & Ho)]]]]; try done.
  rewrite fetch_post by done. rewrite Ho. cbn [negb].
  pose proof (rateLimited_counts (now_rateLimited w) (client_key request) _ Hrate) as Hrate'.
  destruct (rateLimited _ _ _) as [[] buckets]; cbn [snd] in Hrate'; [done|].
  destruct (request_json request) as [body|]; [|done].
  destruct (validateBody body) as [[error|payload]|] eqn:Hv; [done| |done].
  apply validateBody_requestId in Hv as [Hne Hlen].
  unfold from_lookup.
  pose proof (getIdempotent_facts (now_getIdempotent w) (requestId payload)
                (idempotencyStore st)) as (_ & Hsub & _).
  destruct (getIdempotent _ _ _) as [existing store]. cbn [snd] in Hsub.
  assert (Hstore' : map_Forall (fun k r => record_status r = str "accepted"
                                           /\ k <> [] /\ Z.of_nat (length k) <= 120) store)
    by (intros k r Hk; apply (Hstore k r); by apply (lookup_weaken store _ k r)).
  destruct existing as [existing|]; [done|].
  destruct (upstream w) as [code|]; [destruct (negb (ok code))|]; try done.
  split; [done|]. cbn. unfold setIdempotent. by apply map_Forall_insert_2.
Qed.

(** Whatever requests are served, one after another, the two maps stay well
    kept: every count is between 1 and 5, and every stored record has the
    status "accepted" under a request id that is not empty and has at most
    120 code units. *)
Theorem serve_well_kept env requests st :
  (well_kept st -> well_kept (serve env requests st))
  /\ well_kept (serve env requests initial).
Proof.
  assert (Hgen : forall st', well_kept st' -> well_kept (serve env requests st')).
  { induction requests as [|[request w] later IH]; intros st' Hst'; [done|].
    simpl. by apply IH, fetch_well_kept. }
  split; [apply Hgen|]. apply Hgen. split; apply map_Forall_empty.
Qed.

End HandlerShape.

(** ** Runs of the handler one after another *)

Section Served.

Implicit Types (request : Request) (env : Env) (w : Ambient) (st : State).

(** On a POST from an allowed origin the limiter is asked once: its answer
    decides the 429, and its map is the one the run leaves. *)
Lemma fetch_post_limiter request env w st :
  pathname request = str "/contact" -> method request = str "POST" ->
  allowedOrigin (Origin request) env = true ->
  rateBucket (final (fetch request env w st))
  = snd (rateLimited (now_rateLimited w) (client_key request) (rateBucket st))
  /\ bool_decide (status <$> response (fetch request env w st) = Some 429)
     = fst (rateLimited (now_rateLimited w) (client_key request) (rateBucket st)).
Proof.
  intros Hpath Hmethod Ho. rewrite fetch_post by done. rewrite Ho. cbn [negb].
  destruct (rateLimited _ _ _) as [[] buckets]; [done|]. cbn [fst snd].
  destruct (request_json request) as [body|]; [|done].
  destruct (validateBody body) as [[error|payload]|]; [done| |done].
  split; [apply from_lookup_rateBucket|].
  unfold from_lookup.
  destruct (getIdempotent _ _ _) as [[existing|] store]; [done|].
  destruct (upstream w) as [code|]; [|done]. by destruct (negb (ok code)).
Qed.

Lemma outcomes_limited env k requests st :
  Forall (post_by env k) requests ->
  List.map (fun o => bool_decide (status <$> response o = Some 429)) (outcomes env requests st)
  = fst (rateLimited_each (List.map (fun rw => now_rateLimited (snd rw)) requests) k
           (rateBucket st)).
Proof.
  intros Hall. revert st. induction Hall as [|[request w] later Hpost _ IH]; intros st; [done|].
  destruct Hpost as (Hpath & Hmethod & Ho & Hk). cbn [fst snd] in *.
  cbn [outcomes List.map rateLimited_each fst snd].
  destruct (fetch_post_limiter request env w st Hpath Hmethod Ho) as [Hrate H429].
  rewrite Hk in *. rewrite IH, Hrate, H429.
  destruct (rateLimited _ _ _) as [limited buckets]. cbn [fst snd].
  by destruct (rateLimited_each _ _ _).
Qed.

(** The budget of a window, seen by the clients: of the POSTs one client
    makes to [/contact] from allowed origins, the first one opening a window
    and the others coming within its 60000 ms, the first five get past the
    limiter and every further one is answered 429, whatever the bodies and
    the upstream are. *)
Theorem window_budget env k st request1 w1 later :
  opens_window (now_rateLimited w1) k (rateBucket st) ->
  Forall (post_by env k) ((request1, w1) :: later) ->
  Forall (fun rw => now_rateLimited (snd rw) <= now_rateLimited w1 + 60000) later ->
  let calls := S (length later) in
  List.map (fun o => bool_decide (status <$> response o = Some 429))
    (outcomes env ((request1, w1) :: later) st)
  = replicate (5 `min` calls) false ++ replicate (calls - 5) true.
Proof.
  intros Hopen Hall Hlater. cbn zeta.
  rewrite (outcomes_limited env k) by done. cbn [List.map fst snd].
  rewrite rateLimited_each_opened; [by rewrite length_map|done|].
  apply List.Forall_map. exact Hlater.
Qed.

Lemma window_budget_witness :
  let request := request_of "POST" (Some (str "https://site.example")) None in
  let calls := S (length (replicate 6 (request, calm 2000 Throws))) in
  List.map (fun o => bool_decide (status <$> response o = Some 429))
    (outcomes site_env ((request, calm 1000 Throws) :: replicate 6 (request, calm 2000 Throws))
       initial)
  = replicate (5 `min` calls) false ++ replicate (calls - 5) true.
Proof.
  apply (window_budget site_env (str "203.0.113.7") initial
           (request_of "POST" (Some (str "https://site.example")) None) (calm 1000 Throws)
           (replicate 6 (request_of "POST" (Some (str "https://site.example")) None,
                         calm 2000 Throws))).
  - exact I.
  - repeat constructor.
  - repeat constructor; cbn; lia.
Defined.

(** One run keeps a record it cannot disturb, and sends nothing upstream for
    the id of that record. *)
Lemma fetch_recorded request env w st rid r :
  idempotencyStore st !! rid = Some r ->
  quiet rid (expiresAt r) (request, w) ->
  idempotencyStore (final (fetch request env w st)) !! rid = Some r
  /\ (forall payload, upstream_post env payload ∈ effects (fetch request env w st) ->
       requestId payload <> rid).
Proof.
  intros Hr Hquiet.
  destruct (fetch_cases request env w st) as [[payload Hreach]|[-> ->]].
  2: { split; [done|]. by intros payload ?%elem_of_nil. }
  rewrite (fetch_lookup _ _ _ _ _ Hreach).
  destruct (decide (requestId payload = rid)) as [Hid|Hid].
  - destruct Hquiet as [Hnow|Hother]; cbn [fst snd] in *.
    2: { destruct Hreach as (_ & _ & _ & _ & body & Hbody & Hvalid).
         by destruct (Hother body payload Hbody Hvalid). }
    rewrite (from_lookup_duplicate _ _ _ _ _ _ r) by (rewrite ?Hid; done).
    split; [done|]. intros payload' Hin. cbn in Hin.
    apply list_elem_of_singleton in Hin. discriminate.
  - unfold from_lookup.
    pose proof (getIdempotent_facts (now_getIdempotent w) (requestId payload)
                  (idempotencyStore st)) as (_ & _ & Hother).
    destruct (getIdempotent _ _ _) as [existing store]. cbn [snd] in Hother.
    assert (Hkeep : store !! rid = Some r) by (rewrite Hother; done).
    assert (Hposted : forall payload' status,
               upstream_post env payload'
                 ∈ [upstream_post env payload; submit_log (requestId payload) status] ->
               requestId payload' <> rid).
    { intros payload' status [Heq|Hin%list_elem_of_singleton]%elem_of_cons; [|discriminate].
      unfold upstream_post in Heq. congruence. }
    destruct existing as [existing|].
    { split; [done|]. intros payload' Hin. cbn in Hin.
      apply list_elem_of_singleton in Hin. discriminate. }
    destruct (upstream w) as [code|]; [destruct (negb (ok code))|]; cbn [final effects];
      (split; [|by eauto]); cbn; try done.
    unfold setIdempotent. by rewrite lookup_insert_ne.
Qed.

(** So do any number of runs, one after another. *)
Lemma serve_recorded env requests st rid r :
  idempotencyStore st !! rid = Some r ->
  Forall (quiet rid (expiresAt r)) requests ->
  idempotencyStore (serve env requests st) !! rid = Some r
  /\ Forall (fun o => forall payload,
                upstream_post env payload ∈ effects o -> requestId payload <> rid)
       (outcomes env requests st).
Proof.
  intros Hr Hall. revert st Hr.
  induction Hall as [|[request w] later Hquiet _ IH]; intros st Hr; [by split|].
  cbn [serve outcomes].
  destruct (fetch_recorded request env w st rid r Hr Hquiet) as [Hkept Hnone].
  destruct (IH _ Hkept) as [IH1 IH2].
  split; [done|]. by constructor.
Qed.

(** At most once within the lifetime of a record: while a record is stored
    under a request id, however many requests are served whose lookups
    happen before it expires, none of them is sent upstream for that id, and
    the record stays as it is. *)
Theorem no_dispatch_while_recorded env requests st rid r :
  idempotencyStore st !! rid = Some r ->
  Forall (fun rw => now_getIdempotent (snd rw) <= expiresAt r) requests ->
  idempotencyStore (serve env requests st) !! rid = Some r
  /\ Forall (fun o => forall payload,
                upstream_post env payload ∈ effects o -> requestId payload <> rid)
       (outcomes env requests st).
Proof.
  intros Hr Hall. revert st Hr.
  induction Hall as [|[request w] later Hnow _ IH]; intros st Hr; [by split|].
  cbn [fst snd] in Hnow. cbn [serve outcomes].
  destruct (fetch_recorded request env w st rid r Hr (or_introl Hnow)) as [Hkept Hnone].
  destruct (IH _ Hkept) as [IH1 IH2].
  split; [done|]. by constructor.
Qed.

Lemma no_dispatch_while_recorded_witness :
  let request := request_of "POST" (Some (str "https://site.example"))
                   (Some (submission "r-1" "a@b.co")) in
  let st := final (fetch request site_env (calm 1000 (Responds 200)) initial) in
  let r := {| record_status := str "accepted"; expiresAt := 601000 |} in
  idempotencyStore (serve site_env (replicate 3 (request, calm 5000 (Responds 200))) st)
    !! str "r-1" = Some r
  /\ Forall (fun o => forall payload,
                upstream_post site_env payload ∈ effects o -> requestId payload <> str "r-1")
       (outcomes site_env (replicate 3 (request, calm 5000 (Responds 200))) st).
Proof.
  apply (no_dispatch_while_recorded site_env
           (replicate 3 (request_of "POST" (Some (str "https://site.example"))
                           (Some (submission "r-1" "a@b.co")),
                         calm 5000 (Responds 200)))
           (final (fetch (request_of "POST" (Some (str "https://site.example"))
                            (Some (submission "r-1" "a@b.co")))
                     site_env (calm 1000 (Responds 200)) initial))
           (str "r-1") {| record_status := str "accepted"; expiresAt := 601000 |}).
  - reflexivity.
  - repeat constructor; cbn; lia.
Defined.

(** ** A submission sent again *)

(** C1 (as amended): let a first submission with request id [rid] be
    accepted (it passed validation and the upstream confirmed it), its record
    being stored at [now_setIdempotent w1].  A second submission with that id whose lookup
    happens within 600000 ms of it is answered 200 with status "duplicate"
    and makes no outbound call.  A further submission with that id whose
    lookup happens after the 600000 ms finds no record, the lookup removing
    the expired one, and is dispatched upstream as a new one.  A submission
    with id [rid] is here a request that the handler validates to a payload
    with that id, having let it through the origin check and the rate
    limiter.  Any number of other runs may come between the three, as long
    as each has its lookup within the 600000 ms or carries no valid
    submission with the id [rid]; none of the runs between the first and the
    third, the second among them, sends anything upstream for [rid]. *)
Theorem idempotent_replay env st req1 w1 between req2 w2 after req3 w3 rid payload2 payload3 :
  let o1 := fetch req1 env w1 st in
  let expiry := now_setIdempotent w1 + 600000 in
  let st2 := serve env between (final o1) in
  let o2 := fetch req2 env w2 st2 in
  let st3 := serve env after (final o2) in
  let o3 := fetch req3 env w3 st3 in
  response o1 ≫= body = Some (ok_body (str "accepted") rid) ->
  Forall (quiet rid expiry) between ->
  reaches_lookup req2 env w2 st2 payload2 -> requestId payload2 = rid ->
  now_getIdempotent w2 <= expiry ->
  Forall (quiet rid expiry) after ->
  reaches_lookup req3 env w3 st3 payload3 -> requestId payload3 = rid ->
  now_getIdempotent w3 > expiry ->
  IDEMPOTENCY_TTL_MS = 600000
  /\ (status <$> response o2 = Some 200
      /\ response o2 ≫= body = Some (ok_body (str "duplicate") rid)
      /\ posts (effects o2) = [])
  /\ getIdempotent (now_getIdempotent w3) rid (idempotencyStore st3)
     = (None, delete rid (idempotencyStore st3))
  /\ posts (effects o3) = [upstream_post env payload3]
  /\ Forall (fun o => forall payload,
                upstream_post env payload ∈ effects o -> requestId payload <> rid)
       (outcomes env between (final o1) ++ o2 :: outcomes env after (final o2)).
Proof.
  cbn zeta. intros Hacc Hbetween Hreach2 Hid2 Hnow2 Hafter Hreach3 Hid3 Hnow3.
  pose proof (fetch_accepted _ _ _ _ _ Hacc) as Hrec.
  set (st1 := final (fetch req1 env w1 st)) in *.
  set (r := {| record_status := str "accepted";
               expiresAt := now_setIdempotent w1 + 600000 |}) in *.
  destruct (serve_recorded env between st1 rid r Hrec Hbetween) as [Hrec2 Hnone2].
  set (st2 := serve env between st1) in *.
  assert (Ho2 : fetch req2 env w2 st2
                = {| response := Some (json (ok_body (str "duplicate") rid) 200
                                         (cors (Origin req2)));
                     final := {| rateBucket :=
                                   snd (rateLimited (now_rateLimited w2) (client_key req2)
                                          (rateBucket st2));
                                 idempotencyStore := idempotencyStore st2 |};
                     effects := [submit_log rid (str "duplicate")] |}).
  { rewrite (fetch_lookup _ _ _ _ _ Hreach2).
    rewrite (from_lookup_duplicate _ _ _ _ _ _ r); rewrite ?Hid2; done. }
  assert (Hrec2' : idempotencyStore (final (fetch req2 env w2 st2)) !! rid = Some r)
    by (by rewrite Ho2).
  destruct (serve_recorded env after _ rid r Hrec2' Hafter) as [Hrec3 Hnone3].
  set (st3 := serve env after (final (fetch req2 env w2 st2))) in *.
  split; [reflexivity|].
  split; [by rewrite Ho2|].
  split; [by apply (getIdempotent_expired _ _ _ r)|].
  split.
  - rewrite (fetch_lookup _ _ _ _ _ Hreach3).
    apply (from_lookup_expired _ _ _ _ _ _ r); rewrite ?Hid3; done.
  - apply Forall_app. split; [done|]. constructor; [|done].
    rewrite Ho2. intros payload Hin. cbn [effects] in Hin.
    apply list_elem_of_singleton in Hin. discriminate.
Qed.

Lemma idempotent_replay_witness :
  let origin := Some (str "https://site.example") in
  let request := request_of "POST" origin (Some (submission "r-1" "a@b.co")) in
  let other := request_of "POST" origin (Some (submission "r-2" "c@d.org")) in
  let between := [(other, calm 2000 (Responds 200))] in
  let after := [(other, calm 601001 (Responds 200))] in
  let o1 := fetch request site_env (calm 1000 (Responds 200)) initial in
  let st2 := serve site_env between (final o1) in
  let o2 := fetch request site_env (calm 601000 (Responds 200)) st2 in
  let st3 := serve site_env after (final o2) in
  let o3 := fetch request site_env (calm 601002 (Responds 200)) st3 in
  IDEMPOTENCY_TTL_MS = 600000
  /\ (status <$> response o2 = Some 200
      /\ response o2 ≫= body = Some (ok_body (str "duplicate") (str "r-1"))
      /\ posts (effects o2) = [])
  /\ getIdempotent 601002 (str "r-1") (idempotencyStore st3)
     = (None, delete (str "r-1") (idempotencyStore st3))
  /\ posts (effects o3) = [upstream_post site_env (submitted "r-1" "a@b.co")]
  /\ Forall (fun o => forall payload,
                upstream_post site_env payload ∈ effects o -> requestId payload <> str "r-1")
       (outcomes site_env between (final o1) ++ o2 :: outcomes site_env after (final o2)).
Proof.
  apply (idempotent_replay site_env initial
           (request_of "POST" (Some (str "https://site.example"))
              (Some (submission "r-1" "a@b.co")))
           (calm 1000 (Responds 200))
           [(request_of "POST" (Some (str "https://site.example"))
               (Some (submission "r-2" "c@d.org")),
             calm 2000 (Responds 200))]
           (request_of "POST" (Some (str "https://site.example"))
              (Some (submission "r-1" "a@b.co")))
           (calm 601000 (Responds 200))
           [(request_of "POST" (Some (str "https://site.example"))
               (Some (submission "r-2" "c@d.org")),
             calm 601001 (Responds 200))]
           (request_of "POST" (Some (str "https://site.example"))
              (Some (submission "r-1" "a@b.co")))
           (calm 601002 (Responds 200))
           (str "r-1")
           (submitted "r-1" "a@b.co")
           (submitted "r-1" "a@b.co")).
  - reflexivity.
  - repeat constructor. cbn. lia.
  - repeat split; try reflexivity.
    exists (submission "r-1" "a@b.co"). split; reflexivity.
  - reflexivity.
  - cbn. lia.
  - constructor; [|constructor]. right. cbn [fst request_of request_json].
    intros body payload [= <-] Hvalid.
    assert (Hother : validateBody (submission "r-2" "c@d.org")
                     = Some (Valid (submitted "r-2" "c@d.org"))) by reflexivity.
    rewrite Hother in Hvalid. injection Hvalid as <-. discriminate.
  - repeat split; try reflexivity.
    exists (submission "r-1" "a@b.co"). split; reflexivity.
  - reflexivity.
  - cbn. lia.
Defined.

(** C1 (as stated) fails: the rate limiter comes before the
    idempotency lookup.  Here the client's first four POSTs of the window
    carry malformed JSON (each is answered 400 and counted); its fifth is a
    valid submission, confirmed upstream and answered "accepted"; the same
    submission sent again a second later, well within the ten minutes, is
    the sixth of the window and is answered 429, not 200 "duplicate". *)
Lemma idempotent_replay_rate_limited :
  let origin := Some (str "https://site.example") in
  let request := request_of "POST" origin (Some (submission "r-1" "a@b.co")) in
  let malformed := request_of "POST" origin None in
  let st := serve site_env (replicate 4 (malformed, calm 1000 Throws)) initial in
  let o1 := fetch request site_env (calm 2000 (Responds 200)) st in
  let o2 := fetch request site_env (calm 3000 (Responds 200)) (final o1) in
  response o1 = Some (json (ok_body (str "accepted") (str "r-1")) 200 (cors origin))
  /\ posts (effects o1) = [upstream_post site_env (submitted "r-1" "a@b.co")]
  /\ idempotencyStore (final o1) !! str "r-1"
     = Some {| record_status := str "accepted"; expiresAt := 2000 + 600000 |}
  /\ response o2 = Some (json (error_body (str "Rate limit exceeded.")) 429 (cors origin))
  /\ effects o2 = []
  /\ final o2 = final o1.
Proof. repeat split; reflexivity. Qed.

End Served.
